(** * LossyCounting: a shallow embedding of [LossyCounter.py]

    The Python class [LossyCounter] keeps a batch cache, a frequency table
    ([counter]), a per-entry error map ([error]), a bucket clock ([_nbucket])
    and a running total.  Its methods mutate the object in place and may
    raise; they are embedded here in a state-and-exception monad over a
    record holding the object's attributes.

    Numbers.  Python integers are [Z]; [//] is [Z.div] (both floor).  The
    values that Python computes as floats ([eps], the halves [x/2] of the
    median estimate, a fractional threshold) are embedded as exact
    rationals [Qc]: rounding of binary floating point is not modelled.

    Dictionaries.  [Counter] and [dict] objects are [gmap]s.  A [gmap] is
    traversed in its own key order and not in Python's insertion order; the
    loops of [flush] and [prune] are therefore characterised for every
    duplicate-free enumeration of the keys (see [flush_loop_spec] and
    [del_loop_spec]). *)

From Stdlib Require Import ZArith QArith Qcanon Qround Lqa.
From stdpp Require Import gmap strings list fin_maps relations.

Close Scope Q_scope.
Close Scope Qc_scope.
Open Scope Z_scope.

(** ** Python values and exceptions *)

Inductive exn : Type :=
  | ZeroDivisionError
  | KeyError
  | ValueError
  | NotImplementedError.

(** A Python number as the query layer produces it: an [int], or a [float]
    carried as an exact rational. *)
Inductive num : Type :=
  | PyInt (z : Z)
  | PyFloat (q : Qc).

Definition value (x : num) : Qc :=
  match x with
  | PyInt z => Qc_of_Z z
  | PyFloat q => q
  end.

(** [a / b] on two ints (true division). *)
Definition truediv (a b : Z) : Qc := (Qc_of_Z a / Qc_of_Z b)%Qc.

(** [a + x] with [a] an int. *)
Definition int_add (a : Z) (x : num) : num :=
  match x with
  | PyInt z => PyInt (a + z)
  | PyFloat q => PyFloat (Qc_of_Z a + q)%Qc
  end.

(** [x * n] with [n] an int. *)
Definition num_mul_int (x : num) (n : Z) : num :=
  match x with
  | PyInt z => PyInt (z * n)
  | PyFloat q => PyFloat (q * Qc_of_Z n)%Qc
  end.

(** [x < y] and [x > y] compare numerically across int and float. *)
Definition num_ltb (x y : num) : bool := bool_decide (value x < value y)%Qc.
Definition num_gtb (x y : num) : bool := num_ltb y x.

(** ** [batched]: slices of length [n], the last one possibly shorter *)

Fixpoint batched_go {A} (fuel : nat) (n : nat) (it : list A) : list (list A) :=
  match fuel with
  | O => []
  | S fuel' =>
      match take n it with
      | [] => []
      | batch => batch :: batched_go fuel' n (drop n it)
      end
  end.

Definition batched {A} (iterable : list A) (n : Z) : exn + list (list A) :=
  if decide (n < 1) then inl ValueError
  else inr (batched_go (length iterable) (Z.to_nat n) iterable).

(** The [dict] returned by [getBounds] and [getCountsAndErrors] for one key. *)
Record Bounds : Type := mkBounds { lower : Z; upper : Z }.
Record CountError : Type := mkCountError { ce_count : Z; ce_error : Z }.

Section LossyCounter.
Context `{Countable K}.

(** ** The object *)

Record LossyCounter : Type := mkLossyCounter {
  eps : Qc;
  w : Z;
  _cache_counter : gmap K Z;
  _cache_total : Z;
  counter : gmap K Z;
  error : gmap K Z;
  total : Z;
  _nbucket : Z;
  prune_limit : Z;
  flush_limit : Z
}.

Definition set_cache_counter (v : gmap K Z) (s : LossyCounter) : LossyCounter :=
  mkLossyCounter (eps s) (w s) v (_cache_total s) (counter s) (error s)
                 (total s) (_nbucket s) (prune_limit s) (flush_limit s).
Definition set_cache_total (v : Z) (s : LossyCounter) : LossyCounter :=
  mkLossyCounter (eps s) (w s) (_cache_counter s) v (counter s) (error s)
                 (total s) (_nbucket s) (prune_limit s) (flush_limit s).
Definition set_counter (v : gmap K Z) (s : LossyCounter) : LossyCounter :=
  mkLossyCounter (eps s) (w s) (_cache_counter s) (_cache_total s) v (error s)
                 (total s) (_nbucket s) (prune_limit s) (flush_limit s).
Definition set_error (v : gmap K Z) (s : LossyCounter) : LossyCounter :=
  mkLossyCounter (eps s) (w s) (_cache_counter s) (_cache_total s) (counter s) v
                 (total s) (_nbucket s) (prune_limit s) (flush_limit s).
Definition set_total (v : Z) (s : LossyCounter) : LossyCounter :=
  mkLossyCounter (eps s) (w s) (_cache_counter s) (_cache_total s) (counter s)
                 (error s) v (_nbucket s) (prune_limit s) (flush_limit s).
Definition set_nbucket (v : Z) (s : LossyCounter) : LossyCounter :=
  mkLossyCounter (eps s) (w s) (_cache_counter s) (_cache_total s) (counter s)
                 (error s) (total s) v (prune_limit s) (flush_limit s).

(** ** The monad of methods: state that survives an exception *)

Definition M (A : Type) : Type := LossyCounter → (exn + A) * LossyCounter.

Definition ret {A} (a : A) : M A := λ s, (inr a, s).
Definition raise {A} (e : exn) : M A := λ s, (inl e, s).
Definition bind {A B} (m : M A) (f : A → M B) : M B := λ s,
  match m s with
  | (inl e, s') => (inl e, s')
  | (inr a, s') => f a s'
  end.
Definition gets {A} (f : LossyCounter → A) : M A := λ s, (inr (f s), s).
Definition modify (f : LossyCounter → LossyCounter) : M unit := λ s, (inr tt, f s).
Definition lift {A} (r : exn + A) : M A := λ s, (r, s).

Notation "'let*' x ':=' m 'in' k" := (bind m (fun x => k))
  (at level 10, x name, m at level 100, k at level 200).
Notation "m >> k" := (bind m (fun _ => k))
  (at level 100, k at level 200, right associativity).

(** [for x in xs: body x] *)
Fixpoint for_ {A} (xs : list A) (body : A → M unit) : M unit :=
  match xs with
  | [] => ret tt
  | x :: xs' => body x >> for_ xs' body
  end.

(** [for x in xs: acc = body x acc], with [acc] a local variable. *)
Fixpoint for_acc {A B} (xs : list A) (acc : B) (body : A → B → M B) : M B :=
  match xs with
  | [] => ret acc
  | x :: xs' => let* acc' := body x acc in for_acc xs' acc' body
  end.

(** [[x for x in xs if cond x]] *)
Fixpoint comprehension {A} (xs : list A) (cond : A → M bool) : M (list A) :=
  match xs with
  | [] => ret []
  | x :: xs' =>
      let* c := cond x in
      let* rest := comprehension xs' cond in
      ret (if c : bool then x :: rest else rest)
  end.

(** ** Dictionary primitives *)

(** [c[key]] on a [Counter]: a missing key reads as 0 and is not inserted. *)
Definition Counter_get (c : gmap K Z) (key : K) : Z := default 0 (c !! key).

(** [self.error[key]]: a plain [dict], a missing key raises. *)
Definition error_getitem (key : K) : M Z :=
  let* err := gets error in
  match err !! key with
  | Some e => ret e
  | None => raise KeyError
  end.

(** [del self.counter[key]] and [del self.error[key]]. *)
Definition counter_delitem (key : K) : M unit :=
  let* ctr := gets counter in
  match ctr !! key with
  | Some _ => modify (set_counter (delete key ctr))
  | None => raise KeyError
  end.
Definition error_delitem (key : K) : M unit :=
  let* err := gets error in
  match err !! key with
  | Some _ => modify (set_error (delete key err))
  | None => raise KeyError
  end.

(** [a // b] *)
Definition floordiv (a b : Z) : M Z :=
  if decide (b = 0) then raise ZeroDivisionError else ret (a / b).

(** The keys of a dictionary, in the order the model iterates them. *)
Definition keys_of (m : gmap K Z) : list K := (map_to_list m).*1.

(** ** [__init__] *)

Definition __init__ (eps : Qc) (prune_limit flush_limit : option Z)
  : exn + LossyCounter :=
  if decide (eps = 0%Qc) then inl ZeroDivisionError
  else
    let w := Qceiling (/ eps)%Qc in
    inr {| eps := eps; w := w;
           _cache_counter := ∅; _cache_total := 0;
           counter := ∅; error := ∅; total := 0; _nbucket := 0;
           prune_limit := match prune_limit with
                          | None => 10 * w
                          | Some p => p
                          end;
           flush_limit := match flush_limit with
                          | None => 10 * w
                          | Some f => f
                          end |}.

(** ** [prune] *)

Definition prune_keys : M (list K) :=
  let* ctr := gets counter in
  comprehension (keys_of ctr) (λ key,
    let* ctr := gets counter in
    let* e := error_getitem key in
    let* nb := gets _nbucket in
    ret (bool_decide (Counter_get ctr key + e ≤ nb))).

Definition del_loop (keys : list K) : M unit :=
  for_ keys (λ key, counter_delitem key >> error_delitem key).

Definition prune : M unit :=
  let* keys := prune_keys in
  del_loop keys.

(** ** [flush] *)

Definition flush_body (b : Z) (key : K) : M unit :=
  let* ctr := gets counter in
  let* cc := gets _cache_counter in
  match ctr !! key with
  | Some c =>
      modify (set_counter (<[key := c + Counter_get cc key]> ctr))
  | None =>
      if decide (Counter_get cc key > b) then
        modify (set_counter (<[key := Counter_get cc key]> ctr)) >>
        let* nb := gets _nbucket in
        let* err := gets error in
        modify (set_error (<[key := nb]> err))
      else ret tt
  end.

Definition flush_loop (b : Z) (keys : list K) : M unit :=
  for_ keys (flush_body b).

Definition flush : M unit :=
  let* ct := gets _cache_total in
  let* wd := gets w in
  let* b := floordiv ct wd in
  let* cc := gets _cache_counter in
  flush_loop b (keys_of cc) >>
  let* nb := gets _nbucket in
  modify (set_nbucket (nb + b)) >>
  let* tot := gets total in
  let* ct := gets _cache_total in
  modify (set_total (tot + ct)) >>
  modify (set_cache_counter ∅) >>
  modify (set_cache_total 0) >>
  let* ctr := gets counter in
  let* pl := gets prune_limit in
  if decide (Z.of_nat (size ctr) >= pl) then prune else ret tt.

(** ** [cache] *)

(** [Counter.update(chunk)] on the cache. *)
Definition cache_update (chunk : list K) : M unit :=
  for_ chunk (λ key,
    let* cc := gets _cache_counter in
    modify (set_cache_counter (<[key := Counter_get cc key + 1]> cc))).

(** The two updates of [cache] that come before its flush test. *)
Definition cache_fill (chunk : list K) : M unit :=
  cache_update chunk >>
  let* ct := gets _cache_total in
  modify (set_cache_total (ct + Z.of_nat (length chunk))).

Definition cache (chunk : list K) : M unit :=
  cache_fill chunk >>
  let* ct := gets _cache_total in
  let* fl := gets flush_limit in
  if decide (ct >= fl) then flush else ret tt.

(** ** [count] *)

Definition count (iterable : list K) (chunk_size : option Z) : M unit :=
  let* chunk_size := match chunk_size with
               | None => gets flush_limit
               | Some n => ret n
               end in
  let* chunks := lift (batched iterable chunk_size) in
  for_ chunks cache >>
  flush >>
  let* ctr := gets counter in
  let* pl := gets prune_limit in
  if decide (Z.of_nat (size ctr) < pl) then prune else ret tt.

(** ** The query layer *)

Definition getCounts (keys : list K) (approx : string) : M (gmap K num) :=
  if decide (approx = "lower"%string) then
    for_acc keys ∅ (λ key result,
      let* ctr := gets counter in
      match ctr !! key with
      | Some c => ret (<[key := PyInt c]> result)
      | None => ret (<[key := PyInt 0]> result)
      end)
  else if decide (approx = "upper"%string) then
    for_acc keys ∅ (λ key result,
      let* ctr := gets counter in
      match ctr !! key with
      | Some c =>
          let* e := error_getitem key in
          ret (<[key := PyInt (c + e)]> result)
      | None =>
          let* nb := gets _nbucket in
          ret (<[key := PyInt nb]> result)
      end)
  else if decide (approx = "median"%string) then
    for_acc keys ∅ (λ key result,
      let* ctr := gets counter in
      match ctr !! key with
      | Some c =>
          let* e := error_getitem key in
          ret (<[key := int_add c (PyFloat (truediv e 2))]> result)
      | None =>
          let* nb := gets _nbucket in
          ret (<[key := PyFloat (truediv nb 2)]> result)
      end)
  else raise NotImplementedError.

Definition getFreqItems (threshold : option num) (approx : string) : M (list K) :=
  let* threshold := match threshold with
                    | None => let* e := gets eps in ret (PyFloat e)
                    | Some t => ret t
                    end in
  let* threshold := if num_ltb threshold (PyInt 1)
                    then let* tot := gets total in ret (num_mul_int threshold tot)
                    else ret threshold in
  if decide (approx = "lower"%string) then
    let* ctr := gets counter in
    comprehension (keys_of ctr) (λ key,
      let* ctr := gets counter in
      ret (num_gtb (PyInt (Counter_get ctr key)) threshold))
  else if decide (approx = "upper"%string) then
    let* ctr := gets counter in
    comprehension (keys_of ctr) (λ key,
      let* ctr := gets counter in
      let* e := error_getitem key in
      ret (num_gtb (PyInt (Counter_get ctr key + e)) threshold))
  else if decide (approx = "median"%string) then
    let* ctr := gets counter in
    comprehension (keys_of ctr) (λ key,
      let* ctr := gets counter in
      let* e := error_getitem key in
      ret (num_gtb (int_add (Counter_get ctr key) (PyFloat (truediv e 2)))
                   threshold))
  else raise NotImplementedError.

(** [self.error.get(key, self._nbucket)] *)
Definition error_get_default (key : K) : M Z :=
  let* err := gets error in
  let* nb := gets _nbucket in
  ret (default nb (err !! key)).

Definition getCountsAndErrors (keys : list K) : M (gmap K CountError) :=
  for_acc keys ∅ (λ key result,
    let* ctr := gets counter in
    let* e := error_get_default key in
    ret (<[key := mkCountError (Counter_get ctr key) e]> result)).

Definition getBounds (keys : list K) : M (gmap K Bounds) :=
  for_acc keys ∅ (λ key result,
    let* ctr := gets counter in
    let* e := error_get_default key in
    ret (<[key := mkBounds (Counter_get ctr key) (Counter_get ctr key + e)]> result)).

(** ** Call histories *)

(** A call of one of the mutating methods. *)
Inductive call : Type :=
  | Cache (chunk : list K)
  | Count (iterable : list K) (chunk_size : option Z)
  | Flush
  | Prune.

Definition exec (c : call) : M unit :=
  match c with
  | Cache chunk => cache chunk
  | Count iterable chunk_size => count iterable chunk_size
  | Flush => flush
  | Prune => prune
  end.

(** The items a call hands to the engine: [count] hands over nothing when
    [batched] rejects the chunk size. *)
Definition accepted (c : call) (s : LossyCounter) : list K :=
  match c with
  | Cache chunk => chunk
  | Count iterable chunk_size =>
      if decide (default (flush_limit s) chunk_size < 1) then [] else iterable
  | Flush | Prune => []
  end.

(** The object after a history of calls (a caller may catch an exception
    and go on), together with the stream submitted so far. *)
Definition step (c : call) (st : LossyCounter * list K) : LossyCounter * list K :=
  ((exec c st.1).2, st.2 ++ accepted c st.1).

Definition run (cs : list call) (st : LossyCounter * list K)
  : LossyCounter * list K :=
  foldl (λ st c, step c st) st cs.

(** The reference tally: how often [k] occurs in a stream. *)
Definition tally (stream : list K) (k : K) : Z :=
  Z.of_nat (length (filter (λ x, x = k) stream)).

(** ** Predicates used in the statements *)

(** Every tracked item has an error entry. *)
Definition tracked_have_error (s : LossyCounter) : Prop :=
  ∀ k, is_Some (counter s !! k) → is_Some (error s !! k).

(** The frequency table and the error map have the same keys. *)
Definition same_keys (s : LossyCounter) : Prop :=
  dom (counter s) = dom (error s).

(** The pruning condition of an entry. *)
Definition prunable (s : LossyCounter) (k : K) : bool :=
  match counter s !! k, error s !! k with
  | Some c, Some e => bool_decide (c + e ≤ _nbucket s)
  | _, _ => false
  end.

(** What the spec says a flush does to the table entry of a cached item
    with cached count [ck], given the threshold [b]. *)
Definition merge_count (b : Z) (old : option Z) (ck : Z) : option Z :=
  match old with
  | Some c => Some (c + ck)
  | None => if decide (ck > b) then Some ck else None
  end.

Definition merge_error (b nb : Z) (old olderr : option Z) (ck : Z) : option Z :=
  match old with
  | Some _ => olderr
  | None => if decide (ck > b) then Some nb else olderr
  end.

(** Two objects that differ at most in the frequency table and error map. *)
Definition same_outside_table (s s' : LossyCounter) : Prop :=
  eps s' = eps s ∧ w s' = w s ∧
  _cache_counter s' = _cache_counter s ∧ _cache_total s' = _cache_total s ∧
  total s' = total s ∧ _nbucket s' = _nbucket s ∧
  prune_limit s' = prune_limit s ∧ flush_limit s' = flush_limit s.

(** Configuration is never changed by a method. *)
Definition same_config (s s' : LossyCounter) : Prop :=
  eps s' = eps s ∧ w s' = w s ∧
  prune_limit s' = prune_limit s ∧ flush_limit s' = flush_limit s.

(** The count of [k] in the part of the stream that has been flushed:
    everything submitted, less what is still pending in the batch cache. *)
Definition flushed_count (s : LossyCounter) (stream : list K) (k : K) : Z :=
  tally stream k - Counter_get (_cache_counter s) k.

(** The bound invariant of the engine, relative to the submitted stream. *)
Definition sound (s : LossyCounter) (stream : list K) : Prop :=
  1 ≤ w s ∧ 0 ≤ _cache_total s ∧
  ∀ k, 0 ≤ flushed_count s stream k ∧
       match counter s !! k, error s !! k with
       | Some c, Some e =>
           c ≤ flushed_count s stream k ≤ c + e
       | None, None => flushed_count s stream k ≤ _nbucket s
       | _, _ => False
       end.

(** The bounds that [getBounds] reports for [k] enclose the count [t]. *)
Definition bounds_hold (s : LossyCounter) (t : Z) (k : K) : Prop :=
  ∃ bnd, getBounds [k] s = (inr {[k := bnd]}, s) ∧ lower bnd ≤ t ≤ upper bnd.

(** The flush algorithm in the words of the spec: [s1] is [s] after the
    merge of the batch cache and the advance of clock and total. *)
Definition flush_described (s s1 : LossyCounter) : Prop :=
  let b := _cache_total s / w s in
  (∀ k, counter s1 !! k =
        match _cache_counter s !! k with
        | Some ck => merge_count b (counter s !! k) ck
        | None => counter s !! k
        end) ∧
  (∀ k, error s1 !! k =
        match _cache_counter s !! k with
        | Some ck => merge_error b (_nbucket s) (counter s !! k) (error s !! k) ck
        | None => error s !! k
        end) ∧
  _nbucket s1 = _nbucket s + b ∧
  total s1 = total s + _cache_total s ∧
  _cache_counter s1 = ∅ ∧
  _cache_total s1 = 0 ∧
  same_config s s1.

(** A method that never changes the object, whatever its outcome. *)
Definition readonly {A} (m : M A) : Prop := ∀ s, (m s).2 = s.

(** A method that never raises the exception [e]. *)
Definition never_raises {A} (e : exn) (m : M A) : Prop := ∀ s, (m s).1 ≠ inl e.

(** A method that keeps [P] true of the object, also when it raises. *)
Definition preserves {A} (P : LossyCounter → Prop) (m : M A) : Prop :=
  ∀ s, P s → P (m s).2.

(** The approximation modes the query layer accepts. *)
Definition supported (approx : string) : Prop :=
  approx = "lower"%string ∨ approx = "upper"%string ∨ approx = "median"%string.

(** The number of new entries that a flush of [s] admits. *)
Definition admitted (s : LossyCounter) : nat :=
  length (filter (λ key, counter s !! key = None ∧
                         Counter_get (_cache_counter s) key > _cache_total s / w s)
                 (keys_of (_cache_counter s))).

End LossyCounter.

Arguments LossyCounter K {_ _}.
Arguments call K : clear implicits.
Arguments M K {_ _} A.

(** ** Concrete objects on string items *)

Module Scenario.

Definition eps_tenth : Qc := (Qc_of_Z 1 / Qc_of_Z 10)%Qc.

(** An object to fall back on where [__init__] would have raised. *)
Definition blank : LossyCounter string :=
  mkLossyCounter 0%Qc 0 ∅ 0 ∅ ∅ 0 0 0 0.

Definition construct (eps : Qc) (prune_limit flush_limit : option Z)
  : LossyCounter string :=
  match __init__ eps prune_limit flush_limit with
  | inr s => s
  | inl _ => blank
  end.

(** [LossyCounter(eps = 0.1, flush_limit = 10)] *)
Definition engine : LossyCounter string := construct eps_tenth None (Some 10).

Definition batch : list string :=
  ["a"; "a"; "a"; "a"; "a"; "b"; "c"; "d"; "e"; "f"]%string.

(** [LossyCounter(eps = 0.1, prune_limit = 2, flush_limit = 10)] *)
Definition small_table : LossyCounter string :=
  construct eps_tenth (Some 2) (Some 10).

Definition ten (x : string) : list string := replicate 10 x.

(** The object at the moment [cache chunk] reaches its flush test. *)
Definition pending (chunk : list string) (s : LossyCounter string)
  : LossyCounter string :=
  (cache_fill chunk s).2.

(** [LossyCounter(eps = 0.1)]: both limits default to [10 * w = 100]. *)
Definition roomy : LossyCounter string := construct eps_tenth None None.

(** A table in which ["a"] can be pruned and ["b"] cannot. *)
Definition mixed : LossyCounter string :=
  mkLossyCounter eps_tenth 10 ∅ 0
    {[ "a"%string := 1; "b"%string := 7 ]} {[ "a"%string := 2; "b"%string := 1 ]}
    40 3 100 100.

End Scenario.

(** * Primitive steps of the engine and further invariants *)

Section LossyCounter_steps.
Context `{Countable K}.

(** [s1] is [s] after the two updates that [cache chunk] makes before its
    flush test. *)
Definition filled (chunk : list K) (s s1 : LossyCounter K) : Prop :=
  (∀ k, Counter_get (_cache_counter s1) k
        = Counter_get (_cache_counter s) k + tally chunk k) ∧
  _cache_total s1 = _cache_total s + Z.of_nat (length chunk) ∧
  counter s1 = counter s ∧ error s1 = error s ∧
  total s1 = total s ∧ _nbucket s1 = _nbucket s ∧
  same_config s s1.

(** [s1] is [s] after [prune]. *)
Definition pruned (s s1 : LossyCounter K) : Prop :=
  (∀ k, counter s1 !! k = if prunable s k then None else counter s !! k) ∧
  (∀ k, error s1 !! k = if prunable s k then None else error s !! k) ∧
  same_outside_table s s1.

(** Every method call on an engine that satisfies the bound invariant is a
    sequence of these three steps: filling the cache, merging it into the
    table, pruning the table. *)
Inductive prim_step : relation (LossyCounter K * list K) :=
  | prim_fill chunk s s1 stream :
      sound s stream → filled chunk s s1 →
      prim_step (s, stream) (s1, stream ++ chunk)
  | prim_merge s s1 stream :
      sound s stream → flush_described s s1 →
      prim_step (s, stream) (s1, stream)
  | prim_prune s s1 stream :
      sound s stream → pruned s s1 →
      prim_step (s, stream) (s1, stream).

(** The accounting invariant: every submitted item is in the total or in
    the cache, the clock counts whole buckets of the total, and every error
    entry is a past value of the clock. *)
Definition accounted (s : LossyCounter K) (stream : list K) : Prop :=
  total s + _cache_total s = Z.of_nat (length stream) ∧
  0 ≤ _nbucket s ∧
  _nbucket s * w s ≤ total s ∧
  (∀ k e, error s !! k = Some e → 0 ≤ e ≤ _nbucket s) ∧
  (0 < eps s)%Qc ∧ w s = Qceiling (/ eps s)%Qc.

(** The threshold that [getFreqItems] compares against: [eps] when none is
    given, and a value below 1 is a fraction of the total. *)
Definition resolve_threshold (s : LossyCounter K) (thr : option num) : num :=
  let t := match thr with
           | None => PyFloat (eps s)
           | Some t => t
           end in
  if num_ltb t (PyInt 1) then num_mul_int t (total s) else t.

(** The estimate of an entry with count [c] and error [e] in a mode. *)
Definition estimate (approx : string) (c e : Z) : num :=
  if decide (approx = "lower"%string) then PyInt c
  else if decide (approx = "upper"%string) then PyInt (c + e)
  else int_add c (PyFloat (truediv e 2)).

(** [k] is tracked and its estimate exceeds the resolved threshold. *)
Definition frequent (s : LossyCounter K) (thr : option num) (approx : string)
    (k : K) : Prop :=
  ∃ c e, counter s !! k = Some c ∧ error s !! k = Some e ∧
         (value (resolve_threshold s thr) < value (estimate approx c e))%Qc.

(** [Counter.update(chunk)] as a function of the counter. *)
Definition Counter_update (cc : gmap K Z) (chunk : list K) : gmap K Z :=
  foldl (λ cc key, <[key := Counter_get cc key + 1]> cc) cc chunk.

(** [Counter.total()]: the sum of the counts. *)
Definition Counter_total (cc : gmap K Z) : Z :=
  map_fold (λ _ v acc, v + acc) 0 cc.

(** The cache total is the sum of the cached counts, and each is positive
    (the relation that the commented-out line of [cache] relies on). *)
Definition cache_consistent (s : LossyCounter K) : Prop :=
  _cache_total s = Counter_total (_cache_counter s) ∧
  ∀ k v, _cache_counter s !! k = Some v → 1 ≤ v.

(** A method that neither changes the object nor looks at the batch cache:
    its result is the same whatever the cache holds. *)
Definition cache_blind {A} (m : M K A) : Prop :=
  ∀ s cc ct,
    m s = ((m s).1, s) ∧
    m (set_cache_total ct (set_cache_counter cc s))
    = ((m s).1, set_cache_total ct (set_cache_counter cc s)).

End LossyCounter_steps.

(** ** Further concrete objects *)

Module Cases.

(** [LossyCounter(eps = -2, flush_limit = 3)]: [w = ceil(-0.5) = 0]. *)
Definition zero_width : LossyCounter string :=
  Scenario.construct (Qc_of_Z (-2)) None (Some 3).

(** A history with an implicit flush, a chunked [count] and a pruning. *)
Definition history : list (call string) :=
  [Cache Scenario.batch; Count (Scenario.ten "b") (Some 4); Prune].

Definition after_history : LossyCounter string * list string :=
  run history (Scenario.engine, []).

End Cases.

(** * Properties *)

Section LossyCounter_facts.
Context `{Countable K}.
Implicit Types (s : LossyCounter K) (k key : K) (keys chunk stream : list K).
Implicit Types (cs : list (call K)) (st : LossyCounter K * list K).

Notation "'let*' x ':=' m 'in' k" := (bind m (fun x => k))
  (at level 10, x name, m at level 100, k at level 200).
Notation "m >> k" := (bind m (fun _ => k))
  (at level 100, k at level 200, right associativity).

Ltac goal_decide :=
  match goal with |- context [decide ?P] => destruct (decide P) end.

Ltac munfold :=
  unfold bind, ret, raise, gets, modify, lift in *; simpl in *.

(** ** Read-only computations *)

Lemma readonly_ret {A} (a : A) : readonly (K:=K) (ret a).
Proof. by intros s. Qed.

Lemma readonly_raise {A} e : readonly (K:=K) (raise (A:=A) e).
Proof. by intros s. Qed.

Lemma readonly_gets {A} (f : LossyCounter K → A) : readonly (gets f).
Proof. by intros s. Qed.

Lemma readonly_bind {A B} (m : M K A) (f : A → M K B) :
  readonly m → (∀ a, readonly (f a)) → readonly (bind m f).
Proof.
  intros Hm Hf s. unfold bind. specialize (Hm s).
  destruct (m s) as [[e|a] s']; simpl in *; subst; [done|apply Hf].
Qed.

Lemma readonly_for_acc {A B} (xs : list A) (body : A → B → M K B) acc :
  (∀ x b, readonly (body x b)) → readonly (for_acc xs acc body).
Proof.
  intros Hb. revert acc.
  induction xs as [|x xs IH]; intros acc; simpl.
  - apply readonly_ret.
  - apply readonly_bind; [apply Hb|done].
Qed.

Lemma readonly_comprehension {A} (xs : list A) (cond : A → M K bool) :
  (∀ x, readonly (cond x)) → readonly (comprehension xs cond).
Proof.
  intros Hc. induction xs as [|x xs IH]; simpl.
  - apply readonly_ret.
  - apply readonly_bind; [apply Hc|intros c].
    apply readonly_bind; [done|intros r; apply readonly_ret].
Qed.

Lemma readonly_error_getitem key : readonly (error_getitem (K:=K) key).
Proof.
  intros s. unfold error_getitem. munfold. by destruct (error s !! key).
Qed.

Lemma readonly_error_get_default key : readonly (error_get_default (K:=K) key).
Proof. by intros s. Qed.

Create HintDb ro.
#[local] Hint Resolve readonly_ret readonly_raise readonly_gets readonly_error_getitem
  readonly_error_get_default : ro.

Ltac ro_step :=
  first [ solve [auto with ro]
        | apply readonly_for_acc; intros ? ?
        | apply readonly_comprehension; intros ?
        | apply readonly_bind; [|intros ?] ].

Lemma readonly_getCounts keys approx : readonly (getCounts (K:=K) keys approx).
Proof.
  unfold getCounts.
  repeat case_decide; repeat ro_step;
    match goal with |- context [?m !! ?k] => destruct (m !! k) end;
    repeat ro_step.
Qed.

Lemma readonly_getFreqItems thr approx : readonly (getFreqItems (K:=K) thr approx).
Proof.
  unfold getFreqItems.
  apply readonly_bind; [destruct thr; repeat ro_step|intros t0].
  apply readonly_bind; [destruct (num_ltb _ _); repeat ro_step|intros t1].
  repeat case_decide; repeat ro_step.
Qed.

Lemma readonly_getCountsAndErrors keys : readonly (getCountsAndErrors (K:=K) keys).
Proof. unfold getCountsAndErrors. repeat ro_step. Qed.

Lemma readonly_getBounds keys : readonly (getBounds (K:=K) keys).
Proof. unfold getBounds. repeat ro_step. Qed.

(** ** The merge loop of [flush] *)

Lemma same_outside_table_refl s : same_outside_table s s.
Proof. by repeat split. Qed.

Lemma same_outside_table_trans s1 s2 s3 :
  same_outside_table s1 s2 → same_outside_table s2 s3 → same_outside_table s1 s3.
Proof.
  unfold same_outside_table. intros (?&?&?&?&?&?&?&?) (?&?&?&?&?&?&?&?).
  repeat split; congruence.
Qed.

Lemma flush_body_spec b key s :
  ∃ s', flush_body b key s = (inr tt, s') ∧
    (∀ k, counter s' !! k =
          if decide (key = k)
          then merge_count b (counter s !! k) (Counter_get (_cache_counter s) k)
          else counter s !! k) ∧
    (∀ k, error s' !! k =
          if decide (key = k)
          then merge_error b (_nbucket s) (counter s !! k) (error s !! k)
                           (Counter_get (_cache_counter s) k)
          else error s !! k) ∧
    same_outside_table s s'.
Proof.
  unfold flush_body. munfold.
  destruct (counter s !! key) as [c|] eqn:Hc; [|case_decide as Hb]; simpl;
    (eexists; split; [reflexivity|]); simpl;
    (split; [|split; [|by repeat split]]); intros k;
    rewrite ?lookup_insert; case_decide; subst; rewrite ?Hc; simpl;
    try case_decide; done.
Qed.

(** The loop visits each key once and touches only that key's entry, so any
    duplicate-free order of the keys gives the same table. *)
Lemma flush_loop_spec b keys s :
  NoDup keys →
  ∃ s', flush_loop b keys s = (inr tt, s') ∧
    (∀ k, counter s' !! k =
          if decide (k ∈ keys)
          then merge_count b (counter s !! k) (Counter_get (_cache_counter s) k)
          else counter s !! k) ∧
    (∀ k, error s' !! k =
          if decide (k ∈ keys)
          then merge_error b (_nbucket s) (counter s !! k) (error s !! k)
                           (Counter_get (_cache_counter s) k)
          else error s !! k) ∧
    same_outside_table s s'.
Proof.
  unfold flush_loop. intros Hnd. revert s.
  induction Hnd as [|key keys Hnotin Hnd IH]; intros s; cbn [for_].
  - exists s. split; [done|]. split; [|split; [|apply same_outside_table_refl]];
      intros k; (rewrite decide_False; [done|apply not_elem_of_nil]).
  - destruct (flush_body_spec b key s) as (s1 & Hbody & Hc1 & He1 & Hf1).
    destruct (IH s1) as (s2 & Hloop & Hc2 & He2 & Hf2).
    exists s2. unfold bind at 1. rewrite Hbody. split; [done|].
    pose proof Hf1 as (_&_&Hcc&_&_&Hnb&_).
    split; [|split; [|by eapply same_outside_table_trans]]; intros k.
    + rewrite Hc2, Hc1, Hcc.
      destruct (decide (key = k)) as [->|Hne].
      * rewrite decide_False by done. rewrite decide_True by apply list_elem_of_here. done.
      * destruct (decide (k ∈ keys)) as [Hin|Hnin].
        -- rewrite decide_True by (by apply list_elem_of_further). done.
        -- rewrite decide_False; [done|]. rewrite elem_of_cons. by intros [->|?].
    + rewrite He2, He1, Hc1, Hcc, Hnb.
      destruct (decide (key = k)) as [->|Hne].
      * rewrite decide_False by done. rewrite decide_True by apply list_elem_of_here. done.
      * destruct (decide (k ∈ keys)) as [Hin|Hnin].
        -- rewrite decide_True by (by apply list_elem_of_further). done.
        -- rewrite decide_False; [done|]. rewrite elem_of_cons. by intros [->|?].
Qed.

Lemma elem_of_keys_of (m : gmap K Z) k : k ∈ keys_of m ↔ is_Some (m !! k).
Proof.
  unfold keys_of. rewrite list_elem_of_fmap. split.
  - intros ([k' v] & -> & Hin). apply elem_of_map_to_list in Hin. by exists v.
  - intros [v Hv]. exists (k, v). split; [done|]. by apply elem_of_map_to_list.
Qed.

Lemma NoDup_keys_of (m : gmap K Z) : NoDup (keys_of m).
Proof. apply NoDup_fst_map_to_list. Qed.

(** ** [flush], up to the pruning it may trigger *)

Lemma flush_spec s :
  w s ≠ 0 →
  ∃ s1,
    (∀ k, counter s1 !! k =
          match _cache_counter s !! k with
          | Some ck => merge_count (_cache_total s / w s) (counter s !! k) ck
          | None => counter s !! k
          end) ∧
    (∀ k, error s1 !! k =
          match _cache_counter s !! k with
          | Some ck => merge_error (_cache_total s / w s) (_nbucket s)
                                   (counter s !! k) (error s !! k) ck
          | None => error s !! k
          end) ∧
    _nbucket s1 = _nbucket s + _cache_total s / w s ∧
    total s1 = total s + _cache_total s ∧
    _cache_counter s1 = ∅ ∧
    _cache_total s1 = 0 ∧
    same_config s s1 ∧
    flush s = if decide (Z.of_nat (size (counter s1)) >= prune_limit s1)
              then prune s1 else (inr tt, s1).
Proof.
  intros Hw.
  destruct (flush_loop_spec (_cache_total s / w s) (keys_of (_cache_counter s)) s)
    as (s' & Hloop & Hc & He & Hf); [apply NoDup_keys_of|].
  destruct Hf as (Heps & Hw' & Hcc & Hct & Htot & Hnb & Hpl & Hfl).
  exists (set_cache_total 0 (set_cache_counter ∅
            (set_total (total s' + _cache_total s')
               (set_nbucket (_nbucket s' + _cache_total s / w s) s')))).
  simpl. repeat split; try done; try lia.
  - intros k. rewrite Hc. case_decide as Hk.
    + apply elem_of_keys_of in Hk as [ck Hk]. unfold Counter_get. by rewrite Hk.
    + destruct (_cache_counter s !! k) as [ck|] eqn:Hk'; [|done].
      exfalso. apply Hk, elem_of_keys_of. by exists ck.
  - intros k. rewrite He. case_decide as Hk.
    + apply elem_of_keys_of in Hk as [ck Hk]. unfold Counter_get. by rewrite Hk.
    + destruct (_cache_counter s !! k) as [ck|] eqn:Hk'; [|done].
      exfalso. apply Hk, elem_of_keys_of. by exists ck.
  - unfold flush, floordiv. munfold.
    destruct (decide (w s = 0)) as [|_]; [done|]. simpl.
    rewrite Hloop. simpl. by case_decide.
Qed.

(** ** [prune] *)

Lemma comprehension_spec {A} (xs : list A) (cond : A → M K bool) (f : A → bool) s :
  (∀ x, x ∈ xs → cond x s = (inr (f x), s)) →
  comprehension xs cond s = (inr (filter (λ x, f x) xs), s).
Proof.
  induction xs as [|x xs IH]; intros Hcond; simpl; [done|].
  unfold bind at 1. rewrite Hcond by apply list_elem_of_here.
  unfold bind at 1. rewrite IH by (intros ? ?; by apply Hcond, list_elem_of_further).
  unfold ret. destruct (f x) eqn:Hfx.
  - by rewrite filter_cons_True by (by rewrite Hfx).
  - rewrite filter_cons_False; [done|]. rewrite Hfx. by intros [].
Qed.

Lemma prune_cond_ok s key c e :
  counter s !! key = Some c → error s !! key = Some e →
  (let* ctr := gets counter in
   let* e := error_getitem key in
   let* nb := gets _nbucket in
   ret (bool_decide (Counter_get ctr key + e ≤ nb))) s
  = (inr (prunable s key), s).
Proof.
  intros Hc He. unfold error_getitem, prunable, Counter_get. munfold.
  by rewrite Hc, He.
Qed.

Lemma prune_keys_spec s :
  tracked_have_error s →
  prune_keys s = (inr (filter (λ key, prunable s key) (keys_of (counter s))), s).
Proof.
  intros Hte. unfold prune_keys. unfold bind at 1, gets at 1.
  apply comprehension_spec. intros key Hin.
  apply elem_of_keys_of in Hin as [c Hc].
  destruct (Hte key) as [e He]; [by exists c|].
  by eapply prune_cond_ok.
Qed.

Lemma del_loop_spec keys s :
  NoDup keys →
  (∀ k, k ∈ keys → is_Some (counter s !! k) ∧ is_Some (error s !! k)) →
  ∃ s', del_loop keys s = (inr tt, s') ∧
    (∀ k, counter s' !! k = if decide (k ∈ keys) then None else counter s !! k) ∧
    (∀ k, error s' !! k = if decide (k ∈ keys) then None else error s !! k) ∧
    same_outside_table s s'.
Proof.
  unfold del_loop. intros Hnd. revert s.
  induction Hnd as [|key keys Hnotin Hnd IH]; intros s Hin; cbn [for_].
  - exists s. split; [done|]. split; [|split; [|apply same_outside_table_refl]];
      intros k; (rewrite decide_False; [done|apply not_elem_of_nil]).
  - destruct (Hin key) as [[c Hc] [e He]]; [apply list_elem_of_here|].
    set (s1 := set_error (delete key (error s)) (set_counter (delete key (counter s)) s)).
    destruct (IH s1) as (s2 & Hloop & Hc2 & He2 & Hf2).
    { intros k Hk. subst s1; simpl.
      rewrite !lookup_delete_ne by (intros ->; done).
      by apply Hin, list_elem_of_further. }
    exists s2. split.
    { unfold counter_delitem, error_delitem. munfold. rewrite Hc. simpl.
      rewrite He. simpl. exact Hloop. }
    split; [|split].
    + intros k. rewrite Hc2. subst s1; simpl. rewrite lookup_delete.
      destruct (decide (key = k)) as [->|Hne].
      * rewrite (decide_True (P:=k ∈ k :: keys)) by apply list_elem_of_here.
        by case_decide.
      * destruct (decide (k ∈ keys)) as [Hk|Hk].
        -- by rewrite decide_True by (by apply list_elem_of_further).
        -- rewrite decide_False; [done|]. rewrite elem_of_cons. by intros [->|?].
    + intros k. rewrite He2. subst s1; simpl. rewrite lookup_delete.
      destruct (decide (key = k)) as [->|Hne].
      * rewrite (decide_True (P:=k ∈ k :: keys)) by apply list_elem_of_here.
        by case_decide.
      * destruct (decide (k ∈ keys)) as [Hk|Hk].
        -- by rewrite decide_True by (by apply list_elem_of_further).
        -- rewrite decide_False; [done|]. rewrite elem_of_cons. by intros [->|?].
    + eapply same_outside_table_trans; [|exact Hf2]. by repeat split.
Qed.

(** [prune] on an object whose tracked items all have an error entry. *)
Lemma prune_spec s :
  tracked_have_error s →
  ∃ s', prune s = (inr tt, s') ∧
    (∀ k, counter s' !! k = if prunable s k then None else counter s !! k) ∧
    (∀ k, error s' !! k = if prunable s k then None else error s !! k) ∧
    same_outside_table s s'.
Proof.
  intros Hte. unfold prune. unfold bind. rewrite prune_keys_spec by done.
  destruct (del_loop_spec (filter (λ key, prunable s key) (keys_of (counter s))) s)
    as (s' & Hloop & Hc & He & Hf).
  { apply NoDup_filter, NoDup_keys_of. }
  { intros k [Hp Hk]%list_elem_of_filter. unfold prunable in Hp.
    destruct (counter s !! k), (error s !! k); done. }
  exists s'. split; [done|]. split; [|split; [|done]]; intros k.
  - rewrite Hc. case_decide as Hk.
    + apply list_elem_of_filter in Hk as [Hp _]. by destruct (prunable s k).
    + destruct (prunable s k) eqn:Hp; [|done].
      destruct (counter s !! k) as [c|] eqn:Hck; [|done].
      exfalso. apply Hk, list_elem_of_filter. split; [by rewrite Hp|].
      apply elem_of_keys_of. by exists c.
  - rewrite He. case_decide as Hk.
    + apply list_elem_of_filter in Hk as [Hp _]. by destruct (prunable s k).
    + destruct (prunable s k) eqn:Hp; [|done].
      exfalso. apply Hk, list_elem_of_filter. split; [by rewrite Hp|].
      apply elem_of_keys_of. unfold prunable in Hp.
      destruct (counter s !! k); [by eexists|done].
Qed.

(** ** [cache] *)

Lemma tally_nil k : tally (K:=K) [] k = 0.
Proof. done. Qed.

Lemma tally_cons x (l : list K) k :
  tally (x :: l) k = (if decide (x = k) then 1 else 0) + tally l k.
Proof.
  unfold tally. rewrite filter_cons. case_decide; simpl; lia.
Qed.

Lemma tally_app (l1 l2 : list K) k : tally (l1 ++ l2) k = tally l1 k + tally l2 k.
Proof. unfold tally. rewrite filter_app, length_app. lia. Qed.

Lemma tally_nonneg (l : list K) k : 0 ≤ tally l k.
Proof. unfold tally. lia. Qed.

Lemma cache_update_spec chunk s :
  ∃ cc, cache_update chunk s = (inr tt, set_cache_counter cc s) ∧
    ∀ k, Counter_get cc k = Counter_get (_cache_counter s) k + tally chunk k.
Proof.
  unfold cache_update. revert s.
  induction chunk as [|key chunk IH]; intros s; cbn [for_].
  - exists (_cache_counter s). split; [by destruct s|].
    intros k. rewrite tally_nil. lia.
  - destruct (IH (set_cache_counter
       (<[key := Counter_get (_cache_counter s) key + 1]> (_cache_counter s)) s))
      as (cc & Hrun & Hcc).
    exists cc. split.
    + munfold. exact Hrun.
    + intros k. rewrite Hcc, tally_cons. simpl. unfold Counter_get at 1.
      rewrite lookup_insert. case_decide; subst; simpl; unfold Counter_get; lia.
Qed.

Lemma cache_spec chunk s :
  ∃ s1,
    (∀ k, Counter_get (_cache_counter s1) k
          = Counter_get (_cache_counter s) k + tally chunk k) ∧
    _cache_total s1 = _cache_total s + Z.of_nat (length chunk) ∧
    counter s1 = counter s ∧ error s1 = error s ∧
    total s1 = total s ∧ _nbucket s1 = _nbucket s ∧
    same_config s s1 ∧
    cache chunk s = if decide (_cache_total s1 >= flush_limit s1)
                    then flush s1 else (inr tt, s1).
Proof.
  destruct (cache_update_spec chunk s) as (cc & Hrun & Hcc).
  exists (set_cache_total (_cache_total s + Z.of_nat (length chunk))
            (set_cache_counter cc s)).
  simpl. repeat split; try done.
  unfold cache, cache_fill. unfold bind at 1 2. rewrite Hrun. munfold.
  by case_decide.
Qed.

(** ** Properties kept by every method, whatever its outcome *)

Lemma preserves_readonly {A} P (m : M K A) : readonly m → preserves P m.
Proof. intros Hro s Hs. by rewrite Hro. Qed.

Lemma preserves_bind {A B} P (m : M K A) (f : A → M K B) :
  preserves P m → (∀ a, preserves P (f a)) → preserves P (bind m f).
Proof.
  intros Hm Hf s Hs. unfold bind. specialize (Hm s Hs).
  destruct (m s) as [[e|a] s']; simpl in *; [done|by apply Hf].
Qed.

Lemma preserves_for_ {A} P (xs : list A) (body : A → M K unit) :
  (∀ x, preserves P (body x)) → preserves P (for_ xs body).
Proof.
  intros Hb. induction xs as [|x xs IH]; cbn [for_].
  - by apply preserves_readonly.
  - apply preserves_bind; [apply Hb|done].
Qed.

Lemma same_keys_alt s :
  same_keys s ↔ ∀ k, is_Some (counter s !! k) ↔ is_Some (error s !! k).
Proof.
  unfold same_keys. rewrite set_eq. by setoid_rewrite elem_of_dom.
Qed.

Lemma same_keys_tracked s : same_keys s → tracked_have_error s.
Proof. intros Hs k. by apply same_keys_alt. Qed.

Lemma tracked_of_dom s : dom (counter s) ⊆ dom (error s) → tracked_have_error s.
Proof. intros Hd k Hk. by apply elem_of_dom, Hd, elem_of_dom. Qed.

Lemma prune_same_keys : preserves same_keys (prune (K:=K)).
Proof.
  intros s Hs.
  destruct (prune_spec s) as (s' & -> & Hc & He & _); [by apply same_keys_tracked|].
  simpl. apply same_keys_alt. intros k. rewrite Hc, He.
  destruct (prunable s k); [by rewrite !is_Some_alt|by apply same_keys_alt].
Qed.

Lemma same_keys_table s s' :
  counter s' = counter s → error s' = error s → same_keys s → same_keys s'.
Proof. unfold same_keys. by intros -> ->. Qed.

(** With a zero bucket width the floor division raises before anything is
    touched. *)
Lemma flush_zero_width s : w s = 0 → flush s = (inl ZeroDivisionError, s).
Proof.
  intros Hw. unfold flush, floordiv. munfold. rewrite Hw.
  by rewrite decide_True by done.
Qed.

Lemma flush_same_keys : preserves same_keys (flush (K:=K)).
Proof.
  intros s Hs. destruct (decide (w s = 0)) as [Hw|Hw].
  - by rewrite flush_zero_width.
  - destruct (flush_spec s Hw) as (s1 & Hc & He & _ & _ & _ & _ & _ & ->).
    assert (same_keys s1) as Hs1.
    { apply same_keys_alt. intros k. rewrite Hc, He.
      apply same_keys_alt with (k:=k) in Hs.
      destruct (_cache_counter s !! k) as [ck|]; [|done].
      unfold merge_count, merge_error.
      destruct (counter s !! k) as [c|]; simpl.
      - split; [intros _; by apply Hs|by intros _].
      - case_decide; [by rewrite !is_Some_alt|done]. }
    case_decide; [by apply prune_same_keys|done].
Qed.

Lemma cache_same_keys chunk : preserves same_keys (cache (K:=K) chunk).
Proof.
  intros s Hs.
  destruct (cache_spec chunk s) as (s1 & _ & _ & Hc & He & _ & _ & _ & ->).
  assert (same_keys s1) by by eapply same_keys_table.
  case_decide; [by apply flush_same_keys|done].
Qed.

Lemma count_same_keys iterable chunk_size :
  preserves same_keys (count (K:=K) iterable chunk_size).
Proof.
  unfold count.
  apply preserves_bind; [by destruct chunk_size; apply preserves_readonly|intros n].
  apply preserves_bind; [by apply preserves_readonly|intros chunks].
  apply preserves_bind; [apply preserves_for_, cache_same_keys|intros _].
  apply preserves_bind; [apply flush_same_keys|intros _].
  apply preserves_bind; [by apply preserves_readonly|intros ctr].
  apply preserves_bind; [by apply preserves_readonly|intros pl].
  case_decide; [apply prune_same_keys|by apply preserves_readonly].
Qed.

Lemma exec_same_keys (c : call K) : preserves same_keys (exec (K:=K) c).
Proof.
  destruct c; simpl;
    auto using cache_same_keys, count_same_keys, flush_same_keys, prune_same_keys.
Qed.

Lemma run_same_keys cs st : same_keys st.1 → same_keys (run cs st).1.
Proof.
  revert st. induction cs as [|c cs IH]; intros st Hs; simpl; [done|].
  apply IH. simpl. by apply exec_same_keys.
Qed.

Lemma init_same_keys e pl fl s : __init__ (K:=K) e pl fl = inr s → same_keys s.
Proof.
  unfold __init__. case_decide; [done|]. intros [= <-]. done.
Qed.

(** ** [batched] cuts the iterable into consecutive slices *)

Lemma concat_batched_go {A} fuel n (it : list A) :
  (0 < n)%nat → (length it ≤ fuel)%nat → concat (batched_go fuel n it) = it.
Proof.
  intros Hn. revert it.
  induction fuel as [|fuel IH]; intros it Hlen; simpl.
  - destruct it; [done|simpl in Hlen; lia].
  - destruct (take n it) as [|x batch] eqn:Htake.
    + destruct it, n; simpl in *; try done; lia.
    + simpl. rewrite IH.
      * rewrite <-(take_drop n it) at 2. by rewrite Htake.
      * rewrite length_drop. lia.
Qed.

Lemma concat_batched {A} (iterable : list A) n chunks :
  batched iterable n = inr chunks → concat chunks = iterable.
Proof.
  unfold batched. case_decide; [done|]. intros [= <-].
  apply concat_batched_go; lia.
Qed.

(** ** The bound invariant *)

Lemma sound_tracked s stream : sound s stream → tracked_have_error s.
Proof.
  intros (_ & _ & Hk) k [c Hc]. destruct (Hk k) as [_ Hm].
  rewrite Hc in Hm. by destruct (error s !! k).
Qed.

Lemma prune_sound s stream :
  sound s stream → ∃ s', prune s = (inr tt, s') ∧ sound s' stream.
Proof.
  intros Hs. pose proof Hs as (Hw & Hct & Hk).
  destruct (prune_spec s) as (s' & Hrun & Hc & He & Hf);
    [by eapply sound_tracked|].
  destruct Hf as (_ & Hw' & Hcc & Hct' & _ & Hnb & _).
  exists s'. split; [done|]. split; [lia|]. split; [lia|].
  intros k. unfold flushed_count. rewrite Hc, He, Hcc, Hnb.
  specialize (Hk k). unfold flushed_count, prunable in *.
  destruct (counter s !! k) as [c|], (error s !! k) as [e|]; try done.
  case_bool_decide; [lia|done].
Qed.

Lemma flush_sound s stream :
  sound s stream →
  ∃ s', flush s = (inr tt, s') ∧ sound s' stream ∧ _cache_counter s' = ∅.
Proof.
  intros (Hw & Hct & Hk).
  destruct (flush_spec s) as (s1 & Hc & He & Hnb & _ & Hcc & Hct1 & Hcfg & Hrun);
    [lia|].
  destruct Hcfg as (_ & Hw1 & _).
  assert (0 ≤ _cache_total s / w s) as Hb by (apply Z.div_pos; lia).
  assert (sound s1 stream) as Hs1.
  { split; [lia|]. split; [lia|]. intros k.
    unfold flushed_count. rewrite Hc, He, Hnb, Hcc.
    specialize (Hk k). unfold flushed_count, Counter_get in *.
    rewrite lookup_empty. simpl.
    pose proof (tally_nonneg stream k).
    destruct (_cache_counter s !! k) as [ck|]; simpl in *;
      unfold merge_count, merge_error;
      destruct (counter s !! k) as [c|], (error s !! k) as [e|]; try done;
      try goal_decide; lia. }
  rewrite Hrun. case_decide.
  - destruct (prune_sound s1 stream Hs1) as (s' & Hp & Hs' ).
    exists s'. split; [done|]. split; [done|].
    destruct (prune_spec s1) as (s2 & Hp2 & _ & _ & Hf2); [by eapply sound_tracked|].
    rewrite Hp in Hp2. injection Hp2 as <-.
    destruct Hf2 as (_ & _ & -> & _). done.
  - by exists s1.
Qed.

Lemma cache_sound chunk s stream :
  sound s stream →
  ∃ s', cache chunk s = (inr tt, s') ∧ sound s' (stream ++ chunk).
Proof.
  intros (Hw & Hct & Hk).
  destruct (cache_spec chunk s)
    as (s1 & Hcc & Hct1 & Hc & He & _ & Hnb & (_ & Hw1 & _) & Hrun).
  assert (sound s1 (stream ++ chunk)) as Hs1.
  { split; [lia|]. split; [lia|]. intros k.
    unfold flushed_count. rewrite Hcc, tally_app, Hc, He, Hnb.
    specialize (Hk k). unfold flushed_count in Hk.
    replace (tally stream k + tally chunk k
             - (Counter_get (_cache_counter s) k + tally chunk k))
      with (tally stream k - Counter_get (_cache_counter s) k) by lia.
    done. }
  rewrite Hrun. case_decide.
  - destruct (flush_sound s1 _ Hs1) as (s' & ? & ? & _). by exists s'.
  - by exists s1.
Qed.

Lemma for_cache_sound (chunks : list (list K)) s stream :
  sound s stream →
  ∃ s', for_ chunks cache s = (inr tt, s') ∧ sound s' (stream ++ concat chunks).
Proof.
  revert s stream. induction chunks as [|chunk chunks IH]; intros s stream Hs.
  - exists s. split; [done|]. by rewrite app_nil_r.
  - destruct (cache_sound chunk s stream Hs) as (s1 & Hrun1 & Hs1).
    destruct (IH s1 _ Hs1) as (s2 & Hrun2 & Hs2).
    exists s2. cbn [for_ concat]. unfold bind. rewrite Hrun1.
    split; [done|]. by rewrite (assoc_L (++)).
Qed.

Lemma count_sound iterable chunk_size s stream :
  sound s stream →
  sound (count iterable chunk_size s).2
        (stream ++ accepted (Count iterable chunk_size) s).
Proof.
  intros Hs. unfold count, accepted.
  assert ((let* n := match chunk_size with
                     | Some n => ret n
                     | None => gets flush_limit
                     end in ret n) s
          = (inr (default (flush_limit s) chunk_size), s)) as Hn
    by by destruct chunk_size.
  unfold bind at 1.
  replace (match chunk_size with Some n => ret n | None => gets flush_limit end s)
    with (inr (A:=exn) (default (flush_limit s) chunk_size), s)
    by by destruct chunk_size.
  clear Hn. set (n := default (flush_limit s) chunk_size).
  unfold bind at 1, lift.
  destruct (batched iterable n) as [e|chunks] eqn:Hb.
  - unfold batched in Hb. case_decide; [|done]. simpl. by rewrite app_nil_r.
  - rewrite decide_False by (unfold batched in Hb; by case_decide).
    apply concat_batched in Hb as <-.
    destruct (for_cache_sound chunks s stream Hs) as (s1 & Hrun1 & Hs1).
    destruct (flush_sound s1 _ Hs1) as (s2 & Hrun2 & Hs2 & _).
    destruct (prune_sound s2 _ Hs2) as (s3 & Hrun3 & Hs3).
    unfold bind. rewrite Hrun1, Hrun2. munfold.
    case_decide; [by rewrite Hrun3|done].
Qed.

Lemma step_sound (c : call K) st : sound st.1 st.2 → sound (step c st).1 (step c st).2.
Proof.
  destruct st as [s stream]. intros Hs. unfold step. simpl in *.
  destruct c as [chunk|iterable chunk_size| |].
  - destruct (cache_sound chunk s stream Hs) as (s' & Hrun & Hs').
    simpl. by rewrite Hrun.
  - by apply count_sound.
  - destruct (flush_sound s stream Hs) as (s' & Hrun & Hs' & _).
    simpl. rewrite Hrun, app_nil_r. done.
  - destruct (prune_sound s stream Hs) as (s' & Hrun & Hs').
    simpl. rewrite Hrun, app_nil_r. done.
Qed.

Lemma run_sound cs st : sound st.1 st.2 → sound (run cs st).1 (run cs st).2.
Proof.
  revert st. induction cs as [|c cs IH]; intros st Hs; simpl; [done|].
  by apply IH, step_sound.
Qed.

(** ** [__init__] *)

Lemma ceil_inv_pos_iff (e : Qc) : 1 ≤ Qceiling (/ e)%Qc ↔ (0 < e)%Qc.
Proof.
  assert (Qeq (/ e)%Qc (/ (e : Q))%Q) as Hinv by apply Qred_correct.
  pose proof (Qle_ceiling (/ e)%Qc) as Hle.
  pose proof (Qceiling_lt (/ e)%Qc) as Hlt.
  change (0 < e)%Qc with (0 < (e : Q))%Q.
  split.
  - intros Hc.
    assert (0 < / (e : Q))%Q as Hpos.
    { rewrite <-Hinv. eapply Qle_lt_trans; [|exact Hlt].
      change 0%Q with (inject_Z 0). rewrite <-Zle_Qle. lia. }
    apply Qinv_lt_0_compat in Hpos. by rewrite Qinv_involutive in Hpos.
  - intros Hpos. apply Qinv_lt_0_compat in Hpos. rewrite <-Hinv in Hpos.
    assert (inject_Z 0 < inject_Z (Qceiling (/ e)%Qc))%Q as Hc
      by (eapply Qlt_le_trans; [exact Hpos|exact Hle]).
    rewrite <-Zlt_Qlt in Hc. lia.
Qed.

Lemma init_sound e pl fl s :
  (0 < e)%Qc → __init__ (K:=K) e pl fl = inr s → sound s [].
Proof.
  unfold __init__. intros Hpos. case_decide; [done|]. intros [= <-].
  split; [by apply ceil_inv_pos_iff|]. split; [done|].
  intros k. unfold flushed_count, Counter_get. simpl.
  rewrite !lookup_empty, tally_nil. simpl. lia.
Qed.

(** ** Outcomes of the query methods *)

Lemma for_acc_returns {A B} (xs : list A) (body : A → B → M K B) acc s :
  (∀ x b, ∃ b', body x b s = (inr b', s)) →
  ∃ r, for_acc xs acc body s = (inr r, s).
Proof.
  intros Hb. revert acc. induction xs as [|x xs IH]; intros acc; simpl.
  - by exists acc.
  - destruct (Hb x acc) as [b' Hb']. destruct (IH b') as [r Hr].
    exists r. unfold bind. by rewrite Hb'.
Qed.

Lemma never_raises_bind {A B} e (m : M K A) (f : A → M K B) :
  never_raises e m → (∀ a, never_raises e (f a)) → never_raises e (bind m f).
Proof.
  intros Hm Hf s. unfold bind. specialize (Hm s).
  destruct (m s) as [[e'|a] s']; simpl in *; [|apply Hf].
  intros [= ->]. by apply Hm.
Qed.

Lemma never_raises_ret {A} e (a : A) : never_raises (K:=K) e (ret a).
Proof. by intros s. Qed.

Lemma never_raises_gets {A} e (f : LossyCounter K → A) : never_raises e (gets f).
Proof. by intros s. Qed.

Lemma never_raises_for_acc {A B} e (xs : list A) (body : A → B → M K B) acc :
  (∀ x b, never_raises e (body x b)) → never_raises e (for_acc xs acc body).
Proof.
  intros Hb. revert acc. induction xs as [|x xs IH]; intros acc; simpl.
  - apply never_raises_ret.
  - apply never_raises_bind; [apply Hb|done].
Qed.

Lemma never_raises_comprehension {A} e (xs : list A) (cond : A → M K bool) :
  (∀ x, never_raises e (cond x)) → never_raises e (comprehension xs cond).
Proof.
  intros Hc. induction xs as [|x xs IH]; simpl.
  - apply never_raises_ret.
  - apply never_raises_bind; [apply Hc|intros c].
    apply never_raises_bind; [done|intros r; apply never_raises_ret].
Qed.

Lemma error_getitem_only_KeyError key :
  never_raises NotImplementedError (error_getitem (K:=K) key).
Proof.
  intros s. unfold error_getitem. munfold. by destruct (error s !! key).
Qed.

Create HintDb nr.
#[local] Hint Resolve never_raises_ret never_raises_gets
  error_getitem_only_KeyError : nr.

Ltac nr_step :=
  first [ solve [auto with nr]
        | apply never_raises_for_acc; intros ? ?
        | apply never_raises_comprehension; intros ?
        | apply never_raises_bind; [|intros ?] ].

Lemma getCounts_supported keys approx :
  supported approx → never_raises NotImplementedError (getCounts (K:=K) keys approx).
Proof.
  intros Hs. unfold getCounts.
  repeat case_decide; [..|by destruct Hs as [?|[?|?]]]; repeat nr_step;
    match goal with |- context [?m !! ?k] => destruct (m !! k) end;
    repeat nr_step.
Qed.

Lemma getFreqItems_supported thr approx :
  supported approx → never_raises NotImplementedError (getFreqItems (K:=K) thr approx).
Proof.
  intros Hs. unfold getFreqItems.
  apply never_raises_bind; [destruct thr; repeat nr_step|intros t0].
  apply never_raises_bind; [destruct (num_ltb _ _); repeat nr_step|intros t1].
  repeat case_decide; [..|by destruct Hs as [?|[?|?]]]; repeat nr_step.
Qed.

Lemma getCounts_unsupported keys approx s :
  ¬ supported approx → getCounts keys approx s = (inl NotImplementedError, s).
Proof.
  intros Hs. unfold getCounts, supported in *.
  repeat case_decide; try done; naive_solver.
Qed.

Lemma getFreqItems_unsupported thr approx s :
  ¬ supported approx → getFreqItems thr approx s = (inl NotImplementedError, s).
Proof.
  intros Hs. unfold getFreqItems, supported in *. munfold.
  destruct thr as [t|]; simpl; destruct (num_ltb _ _); simpl;
    repeat case_decide; try done; naive_solver.
Qed.

Lemma getCounts_returns keys approx s :
  tracked_have_error s → supported approx →
  ∃ r, getCounts keys approx s = (inr r, s).
Proof.
  intros Hte Hs. unfold getCounts.
  repeat case_decide; [..|by destruct Hs as [?|[?|?]]];
    apply for_acc_returns; intros key result; unfold error_getitem; munfold;
    destruct (counter s !! key) as [c|] eqn:Hc; simpl; eauto;
    (destruct (Hte key) as [e ->]; [by eexists|]); simpl; eauto.
Qed.

Lemma getFreqItems_returns thr approx s :
  tracked_have_error s → supported approx →
  ∃ r, getFreqItems thr approx s = (inr r, s).
Proof.
  intros Hte Hs. unfold getFreqItems.
  set (t0 := match thr with Some t => t | None => PyFloat (eps s) end).
  set (t1 := if num_ltb t0 (PyInt 1) then num_mul_int t0 (total s) else t0).
  assert (∀ (k : num → M K (list K)),
    (let* threshold := match thr with
                       | Some t => ret t
                       | None => let* e := gets eps in ret (PyFloat e)
                       end in
     let* threshold := if num_ltb threshold (PyInt 1)
                       then let* tot := gets total in ret (num_mul_int threshold tot)
                       else ret threshold in
     k threshold) s = k t1 s) as ->.
  { intros k. subst t1 t0. destruct thr as [t|]; munfold;
      by destruct (num_ltb _ _). }
  repeat case_decide; [..|by destruct Hs as [?|[?|?]]]; unfold bind at 1, gets at 1;
    eexists.
  - by apply (comprehension_spec _ _
      (λ key, num_gtb (PyInt (Counter_get (counter s) key)) t1)).
  - apply (comprehension_spec _ _
      (λ key, num_gtb (PyInt (Counter_get (counter s) key
                              + default 0 (error s !! key))) t1)).
    intros key [c Hc]%elem_of_keys_of. unfold error_getitem. munfold.
    destruct (Hte key) as [e ->]; [by eexists|]. done.
  - apply (comprehension_spec _ _
      (λ key, num_gtb (int_add (Counter_get (counter s) key)
                         (PyFloat (truediv (default 0 (error s !! key)) 2))) t1)).
    intros key [c Hc]%elem_of_keys_of. unfold error_getitem. munfold.
    destruct (Hte key) as [e ->]; [by eexists|]. done.
Qed.

Lemma getBounds_one k s :
  getBounds [k] s =
  (inr {[k := mkBounds (Counter_get (counter s) k)
                       (Counter_get (counter s) k + default (_nbucket s) (error s !! k))]},
   s).
Proof. by rewrite <-insert_empty. Qed.

(** * The claims *)

(** C1 (as amended).  For an engine built with [eps > 0] and driven by any
    history of [cache], [count], [flush] and [prune] calls, the bounds that
    [getBounds] reports for any item [k] enclose the count of [k] in the
    flushed part of the submitted stream (the true count less what is still
    pending in the batch cache).  Whenever the batch cache is empty they
    enclose the true count itself.  Equivalently, a table entry satisfies
    [count ≤ flushed ≤ count + error] and an absent item satisfies
    [0 ≤ flushed ≤ bucket_id]. *)
Theorem bound_soundness_of_flushed_stream e pl fl s0 cs k :
  (0 < e)%Qc →
  __init__ e pl fl = inr s0 →
  let st := run cs (s0, []) in
  bounds_hold st.1 (flushed_count st.1 st.2 k) k ∧
  (_cache_counter st.1 = ∅ → bounds_hold st.1 (tally st.2 k) k) ∧
  match counter st.1 !! k with
  | Some c => ∃ e', error st.1 !! k = Some e' ∧
                    c ≤ flushed_count st.1 st.2 k ≤ c + e'
  | None => 0 ≤ flushed_count st.1 st.2 k ≤ _nbucket st.1
  end.
Proof.
  intros Hpos Hinit st.
  assert (sound st.1 st.2) as (_ & _ & Hk)
    by (apply run_sound; simpl; by eapply init_sound).
  specialize (Hk k).
  assert (bounds_hold st.1 (flushed_count st.1 st.2 k) k) as Hb.
  { eexists. split; [apply getBounds_one|]. unfold Counter_get. simpl.
    destruct (counter st.1 !! k), (error st.1 !! k); simpl; try done; lia. }
  split; [done|]. split.
  - intros Hcc. unfold flushed_count, Counter_get in Hb.
    rewrite Hcc, lookup_empty in Hb. simpl in Hb. by rewrite Z.sub_0_r in Hb.
  - destruct Hk as [Hnn Hk].
    destruct (counter st.1 !! k), (error st.1 !! k); try done; try lia.
    eexists. split; [done|lia].
Qed.

(** C2.  On an object with a nonzero bucket width, [flush] merges the batch
    cache into the table as the spec describes ([flush_described]: known
    items accumulate and keep their error, unknown items enter with the
    pre-advance bucket id as error when their cached count exceeds
    [b = batch_total // w] and are dropped otherwise; then the clock
    advances by [b], the total by [batch_total], and the cache is emptied),
    and afterwards calls [prune] exactly when the table size is at least
    [prune_limit]. *)
Theorem flush_algorithm s :
  w s ≠ 0 →
  ∃ s1, flush_described s s1 ∧
        flush s = if decide (Z.of_nat (size (counter s1)) >= prune_limit s1)
                  then prune s1 else (inr tt, s1).
Proof.
  intros Hw.
  destruct (flush_spec s Hw) as (s1 & Hc & He & Hnb & Htot & Hcc & Hct & Hcfg & Hrun).
  exists s1. split; [|exact Hrun]. unfold flush_described.
  split; [exact Hc|]. split; [exact He|]. done.
Qed.

(** C3.  On an object whose tracked items all have an error entry, [prune]
    returns normally; it removes from the table and from the error map
    exactly the entries with [count + error ≤ bucket_id] (the boundary
    included), keeps every other entry as it was, and changes nothing else
    in the object. *)
Theorem prune_exactness s :
  tracked_have_error s →
  ∃ s', prune s = (inr tt, s') ∧
    (∀ k, counter s' !! k = if prunable s k then None else counter s !! k) ∧
    (∀ k, error s' !! k = if prunable s k then None else error s !! k) ∧
    (∀ k c e, counter s !! k = Some c → error s !! k = Some e →
              (counter s' !! k = None ↔ c + e ≤ _nbucket s)) ∧
    same_outside_table s s'.
Proof.
  intros Hte. destruct (prune_spec s Hte) as (s' & Hrun & Hc & He & Hf).
  exists s'. split; [done|]. split; [done|]. split; [done|]. split; [|done].
  intros k c e Hck Hek. rewrite Hc. unfold prunable. rewrite Hck, Hek.
  case_bool_decide; split; intros; done.
Qed.

(** C4 (as amended).  After a pruning call the table holds exactly the
    entries that did not meet the pruning condition: it is no larger than
    before and each remaining entry has [count + error > bucket_id].  Its
    size is below [prune_limit] only if that many entries or more did not
    survive; [prune_limit] itself bounds nothing. *)
Theorem prune_keeps_unprunable_entries s :
  tracked_have_error s →
  ∃ s', prune s = (inr tt, s') ∧
    counter s' = filter (λ kc, ¬ prunable s kc.1) (counter s) ∧
    (size (counter s') ≤ size (counter s))%nat ∧
    (∀ k c, counter s' !! k = Some c →
            ∃ e, error s' !! k = Some e ∧ _nbucket s' < c + e).
Proof.
  intros Hte. destruct (prune_spec s Hte) as (s' & Hrun & Hc & He & Hf).
  assert (counter s' = filter (λ kc, ¬ prunable s kc.1) (counter s)) as Heq.
  { apply map_eq. intros k. rewrite Hc, map_lookup_filter.
    destruct (counter s !! k) as [c|] eqn:Hck; simpl.
    - destruct (prunable s k) eqn:Hp.
      + rewrite option_guard_False; [done|]. by intros [].
      + rewrite option_guard_True; [done|]. by intros [].
    - by destruct (prunable s k). }
  exists s'. split; [done|]. split; [done|]. split.
  - rewrite Heq. apply map_size_filter.
  - intros k c Hk. rewrite Hc in Hk. rewrite He.
    destruct Hf as (_ & _ & _ & _ & _ & -> & _).
    unfold prunable in *.
    destruct (counter s !! k) as [c'|] eqn:Hck; [|done].
    destruct (Hte k) as [e' He']; [by eexists|]. rewrite He' in *.
    case_bool_decide; [done|]. injection Hk as ->. exists e'. split; [done|lia].
Qed.


(** C7.  [getCounts] and [getFreqItems] raise [NotImplementedError] (the
    spec's UnsupportedApproximation) if and only if [approx] is none of
    "lower", "upper", "median"; and they leave the object as it was. *)
Theorem unsupported_approximation_rejected s keys thr approx :
  ((getCounts keys approx s).1 = inl NotImplementedError ↔ ¬ supported approx) ∧
  ((getFreqItems thr approx s).1 = inl NotImplementedError ↔ ¬ supported approx) ∧
  (getCounts keys approx s).2 = s ∧
  (getFreqItems thr approx s).2 = s.
Proof.
  split; [|split; [|split]].
  - split.
    + intros Hr Hs. by apply (getCounts_supported keys approx Hs s).
    + intros Hs. by rewrite getCounts_unsupported.
  - split.
    + intros Hr Hs. by apply (getFreqItems_supported thr approx Hs s).
    + intros Hs. by rewrite getFreqItems_unsupported.
  - apply readonly_getCounts.
  - apply readonly_getFreqItems.
Qed.

(** C8.  On an object whose tracked items all have an error entry, and for
    any key [k], tracked or not, the three modes of [getCounts] return, and
    the median value is exactly the mean of the lower and the upper value. *)
Theorem median_consistency s k :
  tracked_have_error s →
  ∃ l u m,
    getCounts [k] "lower" s = (inr {[k := l]}, s) ∧
    getCounts [k] "upper" s = (inr {[k := u]}, s) ∧
    getCounts [k] "median" s = (inr {[k := m]}, s) ∧
    value m = ((value l + value u) / 2)%Qc.
Proof.
  intros Hte. unfold getCounts, error_getitem.
  rewrite !(decide_True (P:=_ = _)) by done.
  rewrite !(decide_False (P:="upper"%string = "lower"%string)) by done.
  rewrite !(decide_False (P:="median"%string = "lower"%string)) by done.
  rewrite !(decide_False (P:="median"%string = "upper"%string)) by done.
  cbn [for_acc]. unfold bind, gets, ret, raise. simpl.
  setoid_rewrite <-insert_empty.
  destruct (counter s !! k) as [c|] eqn:Hc.
  - destruct (Hte k) as [e ->]; [by eexists|].
    do 3 eexists. repeat split. simpl. unfold truediv.
    rewrite Z2Qc_inj_add, Z2Qc_inj_2. field. done.
  - do 3 eexists. repeat split. simpl. unfold truediv.
    rewrite Z2Qc_inj_0, Z2Qc_inj_2. field. done.
Qed.

(** C9.  On an object whose tracked items all have an error entry, every
    query method, for any list of keys (present in the table or not), any
    threshold and any supported mode, returns a result and leaves the
    object exactly as it was. *)
Theorem queries_read_only s keys thr approx :
  tracked_have_error s → supported approx →
  (∃ r, getCounts keys approx s = (inr r, s)) ∧
  (∃ r, getFreqItems thr approx s = (inr r, s)) ∧
  (∃ r, getCountsAndErrors keys s = (inr r, s)) ∧
  (∃ r, getBounds keys s = (inr r, s)).
Proof.
  intros Hte Hs. split; [by apply getCounts_returns|].
  split; [by apply getFreqItems_returns|].
  split; apply for_acc_returns; intros key result; by eexists.
Qed.

(** C10.  In every object reachable from construction by any history of
    [cache], [count], [flush] and [prune] calls, the frequency table and the
    error map have the same keys, so no query fails with [KeyError] on a
    missing error entry. *)
Theorem counter_error_same_keys e pl fl s0 cs :
  __init__ e pl fl = inr s0 →
  let s := (run cs (s0, [])).1 in
  dom (counter s) = dom (error s) ∧
  ∀ keys thr approx,
    (getCounts keys approx s).1 ≠ inl KeyError ∧
    (getFreqItems thr approx s).1 ≠ inl KeyError.
Proof.
  intros Hinit s.
  assert (same_keys s) as Hsk
    by (apply run_same_keys; simpl; by eapply init_same_keys).
  split; [done|]. intros keys thr approx.
  apply same_keys_tracked in Hsk.
  destruct (decide (approx = "lower"%string ∨ approx = "upper"%string
                    ∨ approx = "median"%string)) as [Hs|Hs].
  - destruct (getCounts_returns keys approx s Hsk Hs) as [r1 ->].
    by destruct (getFreqItems_returns thr approx s Hsk Hs) as [r2 ->].
  - by rewrite getCounts_unsupported, getFreqItems_unsupported.
Qed.

End LossyCounter_facts.

(** * The scenarios of the spec, and concrete instances *)

(** C5.  With [eps = 0.1] (so [w = 10]) and [flush_limit = 10], one [cache]
    call with the ten-item batch reaches the flush test with a full cache,
    flushes with [b = 1], and leaves [bucket_id = 1], ["a"] in the table
    with count 5 and error 0, nothing else in the table, and an empty
    cache; then [getBounds(["a"])] is [{lower: 5, upper: 5}] and
    [getBounds(["b"])] is [{lower: 0, upper: 1}]. *)
Theorem scenario_one_full_bucket :
  let p := Scenario.pending Scenario.batch Scenario.engine in
  let s := (cache Scenario.batch Scenario.engine).2 in
  __init__ Scenario.eps_tenth None (Some 10) = inr Scenario.engine ∧
  w Scenario.engine = 10 ∧
  _cache_total p >= flush_limit p ∧
  _cache_total p / w p = 1 ∧
  cache Scenario.batch Scenario.engine = flush p ∧
  (cache Scenario.batch Scenario.engine).1 = inr tt ∧
  _nbucket s = 1 ∧
  counter s = {[ "a"%string := 5 ]} ∧
  error s = {[ "a"%string := 0 ]} ∧
  Forall (λ x, counter s !! x = None) ["b"; "c"; "d"; "e"; "f"]%string ∧
  _cache_counter s = ∅ ∧ _cache_total s = 0 ∧ total s = 10 ∧
  getBounds ["a"%string] s = (inr {[ "a"%string := mkBounds 5 5 ]}, s) ∧
  getBounds ["b"%string] s = (inr {[ "b"%string := mkBounds 0 1 ]}, s).
Proof.
  intros p s.
  assert (counter s = {[ "a"%string := 5 ]}) as Hc by (vm_compute; reflexivity).
  split_and!; try (vm_compute; reflexivity).
  - vm_compute. discriminate.
  - repeat constructor; by rewrite Hc.
Qed.

(** ** Where a claim fails *)

(** C1, as stated, fails while items are pending in the batch cache: after
    one flush, two more ["z"] are cached without reaching [flush_limit];
    the true count of ["z"] in the submitted stream is 2, above the upper
    bound 1 that [getBounds] reports. *)
Lemma bounds_fail_while_items_pending :
  let st := run [Cache Scenario.batch; Cache ["z"; "z"]%string]
                (Scenario.engine, []) in
  total st.1 = 10 ∧ _nbucket st.1 = 1 ∧
  tally st.2 "z"%string = 2 ∧
  getBounds ["z"%string] st.1 = (inr {[ "z"%string := mkBounds 0 1 ]}, st.1) ∧
  ¬ bounds_hold st.1 (tally st.2 "z"%string) "z"%string.
Proof.
  intros st.
  assert (getBounds ["z"%string] st.1
          = (inr {[ "z"%string := mkBounds 0 1 ]}, st.1)) as Hb
    by (vm_compute; reflexivity).
  assert (tally st.2 "z"%string = 2) as Ht by (vm_compute; reflexivity).
  assert (total st.1 = 10) as Htot by (vm_compute; reflexivity).
  assert (_nbucket st.1 = 1) as Hnb by (vm_compute; reflexivity).
  clearbody st.
  split; [exact Htot|]. split; [exact Hnb|]. split; [exact Ht|].
  split; [exact Hb|].
  intros (bnd & Hbnd & Hle). rewrite Hb in Hbnd.
  apply (f_equal (λ r : (exn + gmap string Bounds) * LossyCounter string,
                    match r.1 with
                    | inr m => m !! "z"%string
                    | inl _ => None
                    end)) in Hbnd.
  cbn beta iota delta [fst] in Hbnd.
  rewrite !lookup_singleton_eq in Hbnd. injection Hbnd as <-.
  rewrite Ht in Hle. simpl in Hle. lia.
Qed.

(** C4, as stated, fails without any pathological flush: with
    [prune_limit = 2], two flushes admit one entry each, the second one
    prunes, and a further explicit pruning call still leaves two entries. *)
Lemma table_size_can_reach_prune_limit :
  let p1 := Scenario.pending (Scenario.ten "a") Scenario.small_table in
  let s1 := (cache (Scenario.ten "a") Scenario.small_table).2 in
  let p2 := Scenario.pending (Scenario.ten "b") s1 in
  let s2 := (cache (Scenario.ten "b") s1).2 in
  let s3 := (prune s2).2 in
  cache (Scenario.ten "a") Scenario.small_table = flush p1 ∧
  cache (Scenario.ten "b") s1 = flush p2 ∧
  admitted p1 = 1%nat ∧ admitted p2 = 1%nat ∧
  prune_limit s3 = 2 ∧
  (prune s2).1 = inr tt ∧
  ¬ (Z.of_nat (size (counter s3)) < prune_limit s3).
Proof.
  intros p1 s1 p2 s2 s3.
  split_and!; try (vm_compute; reflexivity).
  vm_compute. discriminate.
Qed.


(** ** Instances of the conditional theorems *)

Lemma bound_soundness_of_flushed_stream_witness :
  let cs := [Cache Scenario.batch; Cache ["z"; "z"]%string] in
  let st := run cs (Scenario.engine, []) in
  (0 < Scenario.eps_tenth)%Qc ∧
  __init__ Scenario.eps_tenth None (Some 10) = inr Scenario.engine ∧
  bounds_hold st.1 (flushed_count st.1 st.2 "z"%string) "z"%string.
Proof.
  intros cs st.
  assert (0 < Scenario.eps_tenth)%Qc as Hpos by reflexivity.
  assert (__init__ Scenario.eps_tenth None (Some 10) = inr Scenario.engine)
    as Hinit by (vm_compute; reflexivity).
  split; [exact Hpos|]. split; [exact Hinit|].
  exact (proj1 (bound_soundness_of_flushed_stream
                  Scenario.eps_tenth None (Some 10) Scenario.engine cs
                  "z"%string Hpos Hinit)).
Defined.

Lemma flush_algorithm_witness :
  let p := Scenario.pending Scenario.batch Scenario.roomy in
  w p ≠ 0 ∧
  ∃ s1, flush_described p s1 ∧
        flush p = if decide (Z.of_nat (size (counter s1)) >= prune_limit s1)
                  then prune s1 else (inr tt, s1).
Proof.
  intros p.
  assert (w p ≠ 0) as Hw by (vm_compute; discriminate).
  split; [exact Hw|]. exact (flush_algorithm p Hw).
Defined.

Lemma mixed_tracked : tracked_have_error Scenario.mixed.
Proof.
  apply tracked_of_dom.
  apply (bool_decide_unpack _). vm_compute. exact I.
Defined.

Lemma prune_exactness_witness :
  tracked_have_error Scenario.mixed ∧
  ∃ s', prune Scenario.mixed = (inr tt, s') ∧
        counter s' !! "a"%string = None ∧
        counter s' !! "b"%string = Some 7.
Proof.
  split; [exact mixed_tracked|].
  destruct (prune_exactness Scenario.mixed mixed_tracked)
    as (s' & Hrun & Hc & _).
  exists s'. split; [exact Hrun|]. split; rewrite Hc; vm_compute; reflexivity.
Defined.

Lemma prune_keeps_unprunable_entries_witness :
  tracked_have_error Scenario.mixed ∧
  ∃ s', prune Scenario.mixed = (inr tt, s') ∧
        (size (counter s') ≤ size (counter Scenario.mixed))%nat.
Proof.
  split; [exact mixed_tracked|].
  destruct (prune_keeps_unprunable_entries Scenario.mixed mixed_tracked)
    as (s' & Hrun & _ & Hsize & _).
  exists s'. split; [exact Hrun|exact Hsize].
Defined.

Lemma median_consistency_witness :
  tracked_have_error Scenario.mixed ∧
  ∃ l u m,
    getCounts ["b"%string] "lower" Scenario.mixed
      = (inr {[ "b"%string := l ]}, Scenario.mixed) ∧
    getCounts ["b"%string] "upper" Scenario.mixed
      = (inr {[ "b"%string := u ]}, Scenario.mixed) ∧
    getCounts ["b"%string] "median" Scenario.mixed
      = (inr {[ "b"%string := m ]}, Scenario.mixed) ∧
    value m = ((value l + value u) / 2)%Qc.
Proof.
  split; [exact mixed_tracked|].
  exact (median_consistency Scenario.mixed "b"%string mixed_tracked).
Defined.

Lemma queries_read_only_witness :
  tracked_have_error Scenario.mixed ∧ supported "upper" ∧
  (∃ r, getCounts ["a"; "zz"]%string "upper" Scenario.mixed
        = (inr r, Scenario.mixed)) ∧
  (∃ r, getFreqItems None "upper" Scenario.mixed = (inr r, Scenario.mixed)) ∧
  (∃ r, getCountsAndErrors ["a"; "zz"]%string Scenario.mixed
        = (inr r, Scenario.mixed)) ∧
  (∃ r, getBounds ["a"; "zz"]%string Scenario.mixed = (inr r, Scenario.mixed)).
Proof.
  assert (supported "upper") as Hs by (right; left; reflexivity).
  split; [exact mixed_tracked|]. split; [exact Hs|].
  exact (queries_read_only Scenario.mixed ["a"; "zz"]%string None "upper"
           mixed_tracked Hs).
Defined.

Lemma counter_error_same_keys_witness :
  let cs := [Cache Scenario.batch; Count (Scenario.ten "b") (Some 4); Prune] in
  let s := (run cs (Scenario.engine, [])).1 in
  __init__ Scenario.eps_tenth None (Some 10) = inr Scenario.engine ∧
  dom (counter s) = dom (error s).
Proof.
  intros cs s.
  assert (__init__ Scenario.eps_tenth None (Some 10) = inr Scenario.engine)
    as Hinit by (vm_compute; reflexivity).
  split; [exact Hinit|].
  exact (proj1 (counter_error_same_keys
                  Scenario.eps_tenth None (Some 10) Scenario.engine cs Hinit)).
Defined.

(** * Further properties of the code *)

Section LossyCounter_more_facts.
Context `{Countable K}.
Implicit Types (s : LossyCounter K) (k key : K) (keys chunk stream : list K).
Implicit Types (cs : list (call K)) (st : LossyCounter K * list K).

Notation "'let*' x ':=' m 'in' k" := (bind m (fun x => k))
  (at level 10, x name, m at level 100, k at level 200).
Notation "m >> k" := (bind m (fun _ => k))
  (at level 100, k at level 200, right associativity).

Ltac split_goal_decide :=
  match goal with |- context [decide ?P] => destruct (decide P) end.

Ltac run_monad :=
  unfold bind, ret, raise, gets, modify, lift in *; simpl in *.

(** ** The three primitive steps keep the bound invariant *)

Lemma filled_sound chunk s s1 stream :
  sound s stream → filled chunk s s1 → sound s1 (stream ++ chunk).
Proof.
  intros (Hw & Hct & Hk) (Hcc & Hct1 & Hc & He & _ & Hnb & (_ & Hw1 & _)).
  split; [lia|]. split; [lia|]. intros k.
  unfold flushed_count. rewrite Hcc, tally_app, Hc, He, Hnb.
  specialize (Hk k). unfold flushed_count in Hk.
  replace (tally stream k + tally chunk k
           - (Counter_get (_cache_counter s) k + tally chunk k))
    with (tally stream k - Counter_get (_cache_counter s) k) by lia.
  done.
Qed.

Lemma merged_sound s s1 stream :
  sound s stream → flush_described s s1 → sound s1 stream.
Proof.
  intros (Hw & Hct & Hk) (Hc & He & Hnb & _ & Hcc & Hct1 & (_ & Hw1 & _)).
  assert (0 ≤ _cache_total s / w s) as Hb by (apply Z.div_pos; lia).
  split; [lia|]. split; [lia|]. intros k.
  unfold flushed_count. rewrite Hc, He, Hnb, Hcc.
  specialize (Hk k). unfold flushed_count, Counter_get in *.
  rewrite lookup_empty. simpl.
  pose proof (tally_nonneg stream k).
  destruct (_cache_counter s !! k) as [ck|]; simpl in *;
    unfold merge_count, merge_error;
    destruct (counter s !! k) as [c|], (error s !! k) as [e|]; try done;
    try split_goal_decide; lia.
Qed.

Lemma pruned_sound s s1 stream :
  sound s stream → pruned s s1 → sound s1 stream.
Proof.
  intros (Hw & Hct & Hk) (Hc & He & (_ & Hw' & Hcc & Hct' & _ & Hnb & _)).
  split; [lia|]. split; [lia|].
  intros k. unfold flushed_count. rewrite Hc, He, Hcc, Hnb.
  specialize (Hk k). unfold flushed_count, prunable in *.
  destruct (counter s !! k) as [c|], (error s !! k) as [e|]; try done.
  case_bool_decide; [lia|done].
Qed.

Lemma prim_step_sound st st' :
  prim_step st st' → sound st'.1 st'.2.
Proof.
  intros [chunk s s1 stream Hs Hf|s s1 stream Hs Hm|s s1 stream Hs Hp]; simpl.
  - by eapply filled_sound.
  - by eapply merged_sound.
  - by eapply pruned_sound.
Qed.

(** ** Every call is a sequence of primitive steps *)

Lemma prune_steps s stream :
  sound s stream →
  ∃ s1, prune s = (inr tt, s1) ∧ pruned s s1 ∧ sound s1 stream.
Proof.
  intros Hs.
  destruct (prune_spec s) as (s1 & Hrun & Hc & He & Hf); [by eapply sound_tracked|].
  assert (pruned s s1) as Hp by done.
  exists s1. split; [done|]. split; [done|]. by eapply pruned_sound.
Qed.

(** [flush] merges, and then prunes exactly when the table has reached
    [prune_limit]. *)
Lemma flush_steps s stream :
  sound s stream →
  ∃ s1 s2, flush_described s s1 ∧ sound s1 stream ∧
    flush s = (inr tt, s2) ∧ sound s2 stream ∧
    ((Z.of_nat (size (counter s1)) < prune_limit s1 ∧ s2 = s1) ∨
     (Z.of_nat (size (counter s1)) >= prune_limit s1 ∧ pruned s1 s2)).
Proof.
  intros Hs. pose proof Hs as (Hw & _).
  destruct (flush_spec s) as (s1 & Hc & He & Hnb & Htot & Hcc & Hct & Hcfg & Hrun);
    [lia|].
  assert (flush_described s s1) as Hfd by done.
  assert (sound s1 stream) as Hs1 by by eapply merged_sound.
  rewrite Hrun. case_decide as Hsize.
  - destruct (prune_steps s1 stream Hs1) as (s2 & Hp & Hpr & Hs2).
    exists s1, s2. split_and!; try done. by right.
  - exists s1, s1. split_and!; try done. left. split; [lia|done].
Qed.

Lemma cache_steps chunk s stream :
  sound s stream →
  ∃ s1, filled chunk s s1 ∧ sound s1 (stream ++ chunk) ∧
    ((_cache_total s1 < flush_limit s1 ∧ cache chunk s = (inr tt, s1)) ∨
     (_cache_total s1 >= flush_limit s1 ∧ cache chunk s = flush s1)).
Proof.
  intros Hs.
  destruct (cache_spec chunk s)
    as (s1 & Hcc & Hct1 & Hc & He & Htot & Hnb & Hcfg & Hrun).
  assert (filled chunk s s1) as Hf by done.
  exists s1. split; [done|]. split; [by eapply filled_sound|].
  rewrite Hrun. case_decide; [by right|left; split; [lia|done]].
Qed.

Lemma prims_prune s stream :
  sound s stream →
  ∃ s1, prune s = (inr tt, s1) ∧ rtc prim_step (s, stream) (s1, stream).
Proof.
  intros Hs. destruct (prune_steps s stream Hs) as (s1 & Hrun & Hp & _).
  exists s1. split; [done|]. apply rtc_once. by constructor.
Qed.

Lemma prims_flush s stream :
  sound s stream →
  ∃ s2, flush s = (inr tt, s2) ∧ rtc prim_step (s, stream) (s2, stream).
Proof.
  intros Hs.
  destruct (flush_steps s stream Hs) as (s1 & s2 & Hm & Hs1 & Hrun & _ & Hcase).
  exists s2. split; [done|].
  eapply rtc_l; [by apply prim_merge|].
  destruct Hcase as [[_ ->]|[_ Hp]]; [done|].
  apply rtc_once. by apply prim_prune.
Qed.

Lemma prims_cache chunk s stream :
  sound s stream →
  ∃ s2, cache chunk s = (inr tt, s2) ∧
        rtc prim_step (s, stream) (s2, stream ++ chunk).
Proof.
  intros Hs.
  destruct (cache_steps chunk s stream Hs) as (s1 & Hf & Hs1 & Hcase).
  destruct Hcase as [[_ Hrun]|[_ Hrun]].
  - exists s1. split; [done|]. apply rtc_once. by constructor.
  - destruct (prims_flush s1 _ Hs1) as (s2 & Hfl & Hsteps).
    exists s2. split; [by rewrite Hrun|].
    eapply rtc_l; [by apply prim_fill|done].
Qed.

Lemma rtc_prim_step_sound st st' :
  rtc prim_step st st' → sound st.1 st.2 → sound st'.1 st'.2.
Proof.
  induction 1 as [|st1 st2 st3 Hstep _ IH]; [done|].
  intros _. apply IH. by eapply prim_step_sound.
Qed.

Lemma prims_for_cache (chunks : list (list K)) s stream :
  sound s stream →
  ∃ s', for_ chunks cache s = (inr tt, s') ∧
        rtc prim_step (s, stream) (s', stream ++ concat chunks).
Proof.
  revert s stream. induction chunks as [|chunk chunks IH]; intros s stream Hs.
  - exists s. split; [done|]. simpl. by rewrite app_nil_r.
  - destruct (prims_cache chunk s stream Hs) as (s1 & Hrun1 & Hsteps1).
    assert (sound s1 (stream ++ chunk)) as Hs1
      by apply (rtc_prim_step_sound _ _ Hsteps1 Hs).
    destruct (IH s1 _ Hs1) as (s2 & Hrun2 & Hsteps2).
    exists s2. cbn [for_ concat]. unfold bind. rewrite Hrun1.
    split; [done|]. rewrite (assoc_L (++)). by etrans.
Qed.

(** [count] with a usable chunk size: all chunks are cached, then a flush,
    then a pruning unless the flush has left the table at or above
    [prune_limit]. *)
Lemma count_steps iterable chunk_size s stream :
  sound s stream →
  1 ≤ default (flush_limit s) chunk_size →
  ∃ s1 s2 s3,
    for_ (batched_go (length iterable)
            (Z.to_nat (default (flush_limit s) chunk_size)) iterable) cache s
      = (inr tt, s1) ∧
    rtc prim_step (s, stream) (s1, stream ++ iterable) ∧
    flush s1 = (inr tt, s2) ∧
    rtc prim_step (s1, stream ++ iterable) (s2, stream ++ iterable) ∧
    sound s2 (stream ++ iterable) ∧
    count iterable chunk_size s = (inr tt, s3) ∧
    ((Z.of_nat (size (counter s2)) < prune_limit s2 ∧ pruned s2 s3) ∨
     (Z.of_nat (size (counter s2)) >= prune_limit s2 ∧ s3 = s2)).
Proof.
  intros Hs Hn. set (n := default (flush_limit s) chunk_size) in *.
  set (chunks := batched_go (length iterable) (Z.to_nat n) iterable).
  assert (concat chunks = iterable) as Hcat
    by (apply concat_batched_go; lia).
  destruct (prims_for_cache chunks s stream Hs) as (s1 & Hrun1 & Hsteps1).
  rewrite Hcat in Hsteps1.
  assert (sound s1 (stream ++ iterable)) as Hs1
    by apply (rtc_prim_step_sound _ _ Hsteps1 Hs).
  destruct (prims_flush s1 _ Hs1) as (s2 & Hrun2 & Hsteps2).
  assert (sound s2 (stream ++ iterable)) as Hs2
    by apply (rtc_prim_step_sound _ _ Hsteps2 Hs1).
  destruct (prune_steps s2 _ Hs2) as (s3 & Hrun3 & Hp & _).
  assert (∀ s', count iterable chunk_size s
                = (if decide (Z.of_nat (size (counter s2)) < prune_limit s2)
                   then prune s2 else (inr tt, s2))) as Hcount.
  { intros _. unfold count. unfold bind at 1.
    replace (match chunk_size with Some n => ret n | None => gets flush_limit end s)
      with (inr (A:=exn) n, s) by by destruct chunk_size.
    cbv beta iota. unfold bind at 1, lift, batched. cbv beta iota.
    destruct (decide (n < 1)) as [|_]; [lia|].
    fold chunks. unfold bind at 1. rewrite Hrun1.
    unfold bind at 1. rewrite Hrun2. run_monad. by case_decide. }
  destruct (decide (Z.of_nat (size (counter s2)) < prune_limit s2)) as [Hlt|Hge].
  - exists s1, s2, s3. split_and!; try done.
    + by rewrite (Hcount s).
    + by left.
  - exists s1, s2, s2. split_and!; try done.
    + by rewrite (Hcount s).
    + right. split; [lia|done].
Qed.

Lemma prims_exec (c : call K) st :
  sound st.1 st.2 → rtc prim_step st (step c st).
Proof.
  destruct st as [s stream]. intros Hs. unfold step. simpl in *.
  destruct c as [chunk|iterable chunk_size| |]; simpl.
  - destruct (prims_cache chunk s stream Hs) as (s' & -> & Hsteps). done.
  - destruct (decide (default (flush_limit s) chunk_size < 1)) as [Hn|Hn].
    + assert (count iterable chunk_size s = (inl ValueError, s)) as ->.
      { unfold count. unfold bind at 1.
        replace (match chunk_size with Some n => ret n | None => gets flush_limit end s)
          with (inr (A:=exn) (default (flush_limit s) chunk_size), s)
          by by destruct chunk_size.
        cbv beta iota. unfold bind at 1, lift, batched. cbv beta iota.
        by destruct (decide (default (flush_limit s) chunk_size < 1)). }
      simpl. by rewrite app_nil_r.
    + destruct (count_steps iterable chunk_size s stream Hs)
        as (s1 & s2 & s3 & _ & Hst1 & _ & Hst2 & Hs2 & -> & Hcase); [lia|].
      simpl. etrans; [exact Hst1|]. etrans; [exact Hst2|].
      destruct Hcase as [[_ Hp]|[_ ->]]; [|done].
      apply rtc_once. by apply prim_prune.
  - destruct (prims_flush s stream Hs) as (s' & -> & Hsteps).
    simpl. by rewrite app_nil_r.
  - destruct (prims_prune s stream Hs) as (s' & -> & Hsteps).
    simpl. by rewrite app_nil_r.
Qed.

Lemma prims_run cs st :
  sound st.1 st.2 → rtc prim_step st (run cs st).
Proof.
  revert st. induction cs as [|c cs IH]; intros st Hs; simpl; [done|].
  etrans; [by apply prims_exec|]. apply IH. by apply step_sound.
Qed.

(** An invariant of the primitive steps holds along every history. *)
Lemma run_invariant (P : LossyCounter K * list K → Prop) cs st :
  (∀ st1 st2, prim_step st1 st2 → P st1 → P st2) →
  sound st.1 st.2 → P st → P (run cs st).
Proof.
  intros Hstep Hs. pose proof (prims_run cs st Hs) as Hr. clear Hs.
  induction Hr as [|st1 st2 st3 Hst _ IH]; [done|].
  intros HP. apply IH. by eapply Hstep.
Qed.

(** ** Accounting: total, clock and error entries *)

Lemma prim_step_accounted st st' :
  prim_step st st' → accounted st.1 st.2 → accounted st'.1 st'.2.
Proof.
  intros [chunk s s1 stream Hs Hf|s s1 stream Hs Hm|s s1 stream Hs Hp]; simpl;
    intros (Htot & Hnb0 & Hnbw & Herr & Heps & Hweps);
    destruct Hs as (Hw & Hct & _).
  - destruct Hf as (_ & Hct1 & _ & He & Htot1 & Hnb1 & (Heps1 & Hw1 & _)).
    unfold accounted. rewrite length_app.
    rewrite Htot1, Hct1, Hnb1, He, Heps1, Hw1. split_and!; try done. lia.
  - destruct Hm as (_ & He & Hnb1 & Htot1 & _ & Hct1 & (Heps1 & Hw1 & _)).
    assert (0 ≤ _cache_total s / w s) as Hb by (apply Z.div_pos; lia).
    assert (w s * (_cache_total s / w s) ≤ _cache_total s) as Hmul
      by (apply Z.mul_div_le; lia).
    unfold accounted. rewrite Htot1, Hct1, Hnb1, Heps1, Hw1.
    split_and!; try done; try lia.
    intros k e. rewrite He. unfold merge_error.
    destruct (_cache_counter s !! k) as [ck|]; [destruct (counter s !! k)|];
      try split_goal_decide; intros Hk;
      try (injection Hk as <-; lia);
      apply Herr in Hk; lia.
  - destruct Hp as (_ & He & (Heps1 & Hw1 & _ & Hct1 & Htot1 & Hnb1 & _)).
    unfold accounted. rewrite Htot1, Hct1, Hnb1, Heps1, Hw1.
    split_and!; try done.
    intros k e. rewrite He. destruct (prunable s k); [done|]. apply Herr.
Qed.

Lemma init_accounted e pl fl s :
  (0 < e)%Qc → __init__ (K:=K) e pl fl = inr s → accounted s [].
Proof.
  unfold __init__. intros Hpos. case_decide; [done|]. intros [= <-].
  unfold accounted. simpl. by split_and!.
Qed.

Lemma run_accounted e pl fl s0 cs :
  (0 < e)%Qc → __init__ e pl fl = inr s0 →
  accounted (run cs (s0, [])).1 (run cs (s0, [])).2.
Proof.
  intros Hpos Hinit.
  apply (run_invariant (λ st, accounted st.1 st.2)).
  - apply prim_step_accounted.
  - by eapply init_sound.
  - by eapply init_accounted.
Qed.

Lemma run_reaches_sound e pl fl s0 cs :
  (0 < e)%Qc → __init__ e pl fl = inr s0 →
  sound (run cs (s0, [])).1 (run cs (s0, [])).2.
Proof. intros Hpos Hinit. apply run_sound. by eapply init_sound. Qed.


(** ** Clock and total only grow *)

Lemma prim_step_grows st st' :
  prim_step st st' →
  _nbucket st.1 ≤ _nbucket st'.1 ∧ total st.1 ≤ total st'.1.
Proof.
  intros [chunk s s1 stream Hs Hf|s s1 stream Hs Hm|s s1 stream Hs Hp]; simpl;
    destruct Hs as (Hw & Hct & _).
  - destruct Hf as (_ & _ & _ & _ & -> & -> & _). lia.
  - destruct Hm as (_ & _ & -> & -> & _).
    assert (0 ≤ _cache_total s / w s) by (apply Z.div_pos; lia). lia.
  - destruct Hp as (_ & _ & (_ & _ & _ & _ & -> & -> & _)). lia.
Qed.

Lemma rtc_prim_step_grows st st' :
  rtc prim_step st st' →
  _nbucket st.1 ≤ _nbucket st'.1 ∧ total st.1 ≤ total st'.1.
Proof.
  induction 1 as [|st1 st2 st3 Hstep _ IH]; [lia|].
  apply prim_step_grows in Hstep. lia.
Qed.

Lemma run_app cs1 cs2 st : run (cs1 ++ cs2) st = run cs2 (run cs1 st).
Proof. unfold run. by rewrite foldl_app. Qed.

(** ** Configuration is immutable, whatever a call does *)

Lemma preserves_modify P (f : LossyCounter K → LossyCounter K) :
  (∀ s, P s → P (f s)) → preserves P (modify f).
Proof. intros Hf s Hs. by apply Hf. Qed.

Lemma preserves_comprehension {A} P (xs : list A) (cond : A → M K bool) :
  (∀ x, preserves P (cond x)) → preserves P (comprehension xs cond).
Proof.
  intros Hc. induction xs as [|x xs IH]; simpl.
  - by apply preserves_readonly.
  - apply preserves_bind; [apply Hc|intros c].
    apply preserves_bind; [done|intros r]. by apply preserves_readonly.
Qed.

Section config.
Variable s0 : LossyCounter K.

Ltac config_step :=
  first [ apply preserves_readonly;
            solve [by intros ? | apply readonly_error_getitem]
        | apply preserves_modify; intros [] ?; assumption
        | apply preserves_for_; intros ?
        | apply preserves_comprehension; intros ?
        | apply preserves_bind; [|intros ?] ].

Lemma prune_same_config : preserves (same_config s0) (prune (K:=K)).
Proof.
  unfold prune, prune_keys, del_loop, counter_delitem, error_delitem.
  repeat config_step;
    match goal with |- context [?m !! ?k] => destruct (m !! k) end;
    repeat config_step.
Qed.

Lemma flush_same_config : preserves (same_config s0) (flush (K:=K)).
Proof.
  unfold flush, floordiv, flush_loop, flush_body.
  repeat config_step; try apply prune_same_config.
  - case_decide; repeat config_step.
  - match goal with |- context [?m !! ?k] => destruct (m !! k) end;
      [|case_decide]; repeat config_step.
  - case_decide; [apply prune_same_config|repeat config_step].
Qed.

Lemma cache_same_config chunk : preserves (same_config s0) (cache (K:=K) chunk).
Proof.
  unfold cache, cache_fill, cache_update.
  repeat config_step. case_decide; [apply flush_same_config|repeat config_step].
Qed.

Lemma count_same_config iterable chunk_size :
  preserves (same_config s0) (count (K:=K) iterable chunk_size).
Proof.
  unfold count.
  apply preserves_bind; [destruct chunk_size; repeat config_step|intros n].
  apply preserves_bind; [repeat config_step|intros chunks].
  apply preserves_bind; [apply preserves_for_, cache_same_config|intros _].
  apply preserves_bind; [apply flush_same_config|intros _].
  repeat config_step.
  case_decide; [apply prune_same_config|repeat config_step].
Qed.

Lemma exec_same_config (c : call K) : preserves (same_config s0) (exec c).
Proof.
  destruct c; simpl; auto using cache_same_config, count_same_config,
    flush_same_config, prune_same_config.
Qed.


End config.

(** ** Pruning and flushing twice *)

Lemma pruned_none_prunable s s1 : pruned s s1 → ∀ k, prunable s1 k = false.
Proof.
  intros (Hc & He & (_ & _ & _ & _ & _ & Hnb & _)) k.
  unfold prunable at 1. rewrite Hc, He, Hnb.
  destruct (prunable s k) eqn:Hp; [done|]. exact Hp.
Qed.

Lemma pruned_tracked s s1 :
  tracked_have_error s → pruned s s1 → tracked_have_error s1.
Proof.
  intros Hte (Hc & He & _) k. rewrite Hc, He.
  destruct (prunable s k); [by intros [? ?]|apply Hte].
Qed.


(** With nothing to prune, [prune] leaves the object as it is. *)
Lemma prune_fixed s :
  tracked_have_error s → (∀ k, prunable s k = false) → prune s = (inr tt, s).
Proof.
  intros Hte Hnone. unfold prune, bind. rewrite prune_keys_spec by done.
  assert (filter (λ key, prunable s key) (keys_of (counter s)) = []) as ->; [|done].
  destruct (filter _ _) as [|k l] eqn:Hf; [done|].
  assert (k ∈ filter (λ key, prunable s key) (keys_of (counter s))) as Hk
    by (rewrite Hf; apply list_elem_of_here).
  apply list_elem_of_filter in Hk as [Hp _]. by rewrite Hnone in Hp.
Qed.




(** ** The cache stays below [flush_limit] *)

Lemma flush_final s stream :
  sound s stream →
  ∃ s2, flush s = (inr tt, s2) ∧ sound s2 stream ∧
        _cache_total s2 = 0 ∧ _cache_counter s2 = ∅ ∧ same_config s s2.
Proof.
  intros Hs.
  destruct (flush_steps s stream Hs) as (s1 & s2 & Hm & _ & Hrun & Hs2 & Hcase).
  destruct Hm as (_ & _ & _ & _ & Hcc & Hct & Hcfg).
  exists s2. split; [done|]. split; [done|].
  destruct Hcase as [[_ ->]|[_ (_ & _ & (Heps & Hw & -> & -> & _ & _ & Hpl & Hfl))]];
    [done|].
  split_and!; try done. destruct Hcfg as (? & ? & ? & ?).
  unfold same_config. split_and!; congruence.
Qed.

Lemma cache_nothing s :
  _cache_total s < flush_limit s → cache [] s = (inr tt, s).
Proof.
  intros Hlt. unfold cache, cache_fill, cache_update. run_monad.
  rewrite Z.add_0_r. rewrite decide_False by lia. by destruct s.
Qed.

Lemma same_config_refl s : same_config s s.
Proof. by repeat split. Qed.

Lemma count_rejected iterable chunk_size s :
  default (flush_limit s) chunk_size < 1 →
  count iterable chunk_size s = (inl ValueError, s).
Proof.
  intros Hn. unfold count. unfold bind at 1.
  replace (match chunk_size with Some n => ret n | None => gets flush_limit end s)
    with (inr (A:=exn) (default (flush_limit s) chunk_size), s)
    by by destruct chunk_size.
  cbv beta iota. unfold bind at 1, lift, batched. cbv beta iota.
  by destruct (decide (default (flush_limit s) chunk_size < 1)).
Qed.

(** After [count] the cache is empty and nothing in the table is prunable:
    the flush prunes a table at or above [prune_limit], and [count] itself
    prunes a table below it. *)
Lemma count_final iterable chunk_size s stream :
  sound s stream →
  1 ≤ default (flush_limit s) chunk_size →
  ∃ s3, count iterable chunk_size s = (inr tt, s3) ∧
        sound s3 (stream ++ iterable) ∧
        rtc prim_step (s, stream) (s3, stream ++ iterable) ∧
        _cache_total s3 = 0 ∧ _cache_counter s3 = ∅ ∧
        ∀ k, prunable s3 k = false.
Proof.
  intros Hs Hn.
  destruct (count_steps iterable chunk_size s stream Hs Hn)
    as (s1 & s2 & s3 & _ & Hst1 & Hfl & Hst2 & Hs2 & Hrun & Hcase).
  assert (sound s1 (stream ++ iterable)) as Hs1
    by apply (rtc_prim_step_sound _ _ Hst1 Hs).
  destruct (flush_steps s1 _ Hs1) as (s1m & s2' & Hm & Hs1m & Hfl' & _ & Hcase').
  rewrite Hfl in Hfl'. injection Hfl' as <-.
  assert (_cache_total s2 = 0 ∧ _cache_counter s2 = ∅) as [Hct2 Hcc2].
  { destruct Hm as (_ & _ & _ & _ & Hcc & Hct & _).
    destruct Hcase' as [[_ ->]|[_ (_ & _ & (_ & _ & -> & -> & _))]]; done. }
  exists s3. split; [done|].
  destruct Hcase as [[Hlt Hp]|[Hge ->]].
  - split; [exact (pruned_sound _ _ _ Hs2 Hp)|].
    split; [etrans; [exact Hst1|]; etrans; [exact Hst2|];
            apply rtc_once; by apply prim_prune|].
    pose proof Hp as (_ & _ & (_ & _ & -> & -> & _)).
    split_and!; try done. by eapply pruned_none_prunable.
  - split; [done|]. split; [by etrans|]. split_and!; try done.
    destruct Hcase' as [[Hlt ->]|[_ Hp]]; [lia|]. by eapply pruned_none_prunable.
Qed.

Lemma step_below_limit (c : call K) st :
  sound st.1 st.2 → 0 < flush_limit st.1 →
  _cache_total st.1 < flush_limit st.1 →
  0 < flush_limit (step c st).1 ∧
  _cache_total (step c st).1 < flush_limit (step c st).1.
Proof.
  destruct st as [s stream]. intros Hs Hfl Hlt. unfold step. simpl in *.
  pose proof (exec_same_config s c s (same_config_refl s)) as (_ & _ & _ & Hfl').
  rewrite Hfl'. split; [done|].
  destruct c as [chunk|iterable chunk_size| |]; simpl in *.
  - destruct (cache_steps chunk s stream Hs) as (s1 & Hf & Hs1 & Hcase).
    destruct Hf as (_ & _ & _ & _ & _ & _ & (_ & _ & _ & Hfl1)).
    destruct Hcase as [[Hlt1 ->]|[_ ->]]; simpl; [lia|].
    destruct (flush_final s1 _ Hs1) as (s2 & Hrun & _ & Hct & _).
    rewrite Hrun. simpl. lia.
  - destruct (decide (default (flush_limit s) chunk_size < 1)) as [Hn|Hn].
    + by rewrite count_rejected.
    + destruct (count_final iterable chunk_size s stream Hs)
        as (s3 & Hrun & _ & _ & Hct & _); [lia|].
      rewrite Hrun. simpl. lia.
  - destruct (flush_final s stream Hs) as (s2 & Hrun & _ & Hct & _).
    rewrite Hrun. simpl. lia.
  - destruct (prune_steps s stream Hs) as (s1 & Hrun & (_ & _ & Hf) & _).
    destruct Hf as (_ & _ & _ & Hct & _). rewrite Hrun. simpl. lia.
Qed.

Lemma run_below_limit cs st :
  sound st.1 st.2 → 0 < flush_limit st.1 →
  _cache_total st.1 < flush_limit st.1 →
  _cache_total (run cs st).1 < flush_limit (run cs st).1.
Proof.
  revert st. induction cs as [|c cs IH]; intros st Hs Hfl Hlt; simpl; [done|].
  destruct (step_below_limit c st Hs Hfl Hlt). apply IH; [by apply step_sound|done..].
Qed.

(** ** [batched] *)

Lemma batched_go_nil {A} fuel n : batched_go (A:=A) fuel n [] = [].
Proof. destruct fuel; [done|]. simpl. by rewrite take_nil. Qed.

Lemma batched_go_chunks {A} fuel n (it : list A) :
  (0 < n)%nat → (length it ≤ fuel)%nat →
  Forall (λ c, c ≠ [] ∧ (length c ≤ n)%nat) (batched_go fuel n it) ∧
  ∀ i c, batched_go fuel n it !! i = Some c →
         (S i < length (batched_go fuel n it))%nat → length c = n.
Proof.
  intros Hn. revert it.
  induction fuel as [|fuel IH]; intros it Hlen; simpl.
  - split; [constructor|]. intros i c Hc. by rewrite lookup_nil in Hc.
  - destruct (take n it) as [|x batch] eqn:Htake.
    + split; [constructor|]. intros i c Hc. by rewrite lookup_nil in Hc.
    + destruct (IH (drop n it)) as [Hall Hfull]; [rewrite length_drop; lia|].
      assert (length (x :: batch) ≤ n)%nat as Hle
        by (rewrite <-Htake, length_take; lia).
      split; [constructor; [done|exact Hall]|].
      intros [|i] c Hc Hlast; simpl in *.
      * injection Hc as <-.
        destruct (decide (length it ≤ n)%nat) as [Hshort|Hlong].
        -- rewrite drop_ge, batched_go_nil in Hlast by done. simpl in Hlast. lia.
        -- rewrite <-Htake, length_take. lia.
      * apply (Hfull i c Hc). lia.
Qed.

(** ** What the query methods return, key by key *)

Lemma for_acc_insert {V} (f : K → V) keys (acc : gmap K V)
    (body : K → gmap K V → M K (gmap K V)) s :
  (∀ key r, body key r s = (inr (<[key := f key]> r), s)) →
  ∃ r, for_acc keys acc body s = (inr r, s) ∧
       ∀ k, r !! k = if decide (k ∈ keys) then Some (f k) else acc !! k.
Proof.
  intros Hb. revert acc. induction keys as [|key keys IH]; intros acc.
  - exists acc. split; [done|]. intros k.
    rewrite decide_False; [done|apply not_elem_of_nil].
  - destruct (IH (<[key := f key]> acc)) as (r & Hrun & Hr).
    exists r. cbn [for_acc]. unfold bind. rewrite Hb. split; [done|].
    intros k. rewrite Hr, lookup_insert.
    destruct (decide (k ∈ keys)) as [Hin|Hnin].
    + by rewrite decide_True by (by apply list_elem_of_further).
    + destruct (decide (key = k)) as [->|Hne].
      * by rewrite decide_True by apply list_elem_of_here.
      * rewrite decide_False; [done|]. rewrite elem_of_cons. by intros [->|?].
Qed.

Lemma getBounds_spec keys s :
  ∃ r, getBounds keys s = (inr r, s) ∧
    ∀ k, r !! k =
         if decide (k ∈ keys)
         then Some (mkBounds (Counter_get (counter s) k)
                     (Counter_get (counter s) k + default (_nbucket s) (error s !! k)))
         else None.
Proof.
  destruct (for_acc_insert
    (λ k, mkBounds (Counter_get (counter s) k)
            (Counter_get (counter s) k + default (_nbucket s) (error s !! k)))
    keys ∅
    (λ key result,
       let* ctr := gets counter in
       let* e := error_get_default key in
       ret (<[key := mkBounds (Counter_get ctr key) (Counter_get ctr key + e)]> result))
    s) as (r & Hrun & Hr); [done|].
  exists r. split; [exact Hrun|]. intros k. rewrite Hr. by rewrite lookup_empty.
Qed.

Lemma getCountsAndErrors_spec keys s :
  ∃ r, getCountsAndErrors keys s = (inr r, s) ∧
    ∀ k, r !! k =
         if decide (k ∈ keys)
         then Some (mkCountError (Counter_get (counter s) k)
                                 (default (_nbucket s) (error s !! k)))
         else None.
Proof.
  destruct (for_acc_insert
    (λ k, mkCountError (Counter_get (counter s) k)
                       (default (_nbucket s) (error s !! k)))
    keys ∅
    (λ key result,
       let* ctr := gets counter in
       let* e := error_get_default key in
       ret (<[key := mkCountError (Counter_get ctr key) e]> result))
    s) as (r & Hrun & Hr); [done|].
  exists r. split; [exact Hrun|]. intros k. rewrite Hr. by rewrite lookup_empty.
Qed.

(** The value that [getCounts] stores for a key, mode by mode. *)
Lemma getCounts_lower_spec keys s :
  ∃ r, getCounts keys "lower" s = (inr r, s) ∧
    ∀ k, r !! k = if decide (k ∈ keys)
                  then Some (PyInt (Counter_get (counter s) k)) else None.
Proof.
  destruct (for_acc_insert (λ k, PyInt (Counter_get (counter s) k)) keys ∅
    (λ key result,
      let* ctr := gets counter in
      match ctr !! key with
      | Some c => ret (<[key := PyInt c]> result)
      | None => ret (<[key := PyInt 0]> result)
      end) s) as (r & Hrun & Hr).
  { intros key res. unfold Counter_get. run_monad.
    by destruct (counter s !! key). }
  exists r. split; [exact Hrun|]. intros k. rewrite Hr. by rewrite lookup_empty.
Qed.

Lemma getCounts_upper_spec keys s :
  same_keys s →
  ∃ r, getCounts keys "upper" s = (inr r, s) ∧
    ∀ k, r !! k =
         if decide (k ∈ keys)
         then Some (PyInt (Counter_get (counter s) k
                           + default (_nbucket s) (error s !! k)))
         else None.
Proof.
  intros Hsk.
  destruct (for_acc_insert
    (λ k, PyInt (Counter_get (counter s) k + default (_nbucket s) (error s !! k)))
    keys ∅
    (λ key result,
      let* ctr := gets counter in
      match ctr !! key with
      | Some c =>
          let* e := error_getitem key in
          ret (<[key := PyInt (c + e)]> result)
      | None =>
          let* nb := gets _nbucket in
          ret (<[key := PyInt nb]> result)
      end) s) as (r & Hrun & Hr).
  { intros key res. unfold Counter_get, error_getitem. run_monad.
    pose proof (proj1 (same_keys_alt s) Hsk key) as Hkey.
    destruct (counter s !! key) as [c|] eqn:Hc; simpl.
    - destruct (proj1 Hkey) as [e ->]; [by eexists|]. done.
    - destruct (error s !! key) as [e|] eqn:He; [|done].
      by destruct (proj2 Hkey) as [? ?]. }
  exists r. split; [exact Hrun|]. intros k. rewrite Hr. by rewrite lookup_empty.
Qed.

Lemma getCounts_median_spec keys s :
  same_keys s →
  ∃ r, getCounts keys "median" s = (inr r, s) ∧
    ∀ k, r !! k =
         if decide (k ∈ keys)
         then Some (int_add (Counter_get (counter s) k)
                      (PyFloat (truediv (default (_nbucket s) (error s !! k)) 2)))
         else None.
Proof.
  intros Hsk.
  destruct (for_acc_insert
    (λ k, int_add (Counter_get (counter s) k)
            (PyFloat (truediv (default (_nbucket s) (error s !! k)) 2)))
    keys ∅
    (λ key result,
      let* ctr := gets counter in
      match ctr !! key with
      | Some c =>
          let* e := error_getitem key in
          ret (<[key := int_add c (PyFloat (truediv e 2))]> result)
      | None =>
          let* nb := gets _nbucket in
          ret (<[key := PyFloat (truediv nb 2)]> result)
      end) s) as (r & Hrun & Hr).
  { intros key res. unfold Counter_get, error_getitem. run_monad.
    pose proof (proj1 (same_keys_alt s) Hsk key) as Hkey.
    destruct (counter s !! key) as [c|] eqn:Hc; simpl.
    - destruct (proj1 Hkey) as [e ->]; [by eexists|]. done.
    - destruct (error s !! key) as [e|] eqn:He.
      + by destruct (proj2 Hkey) as [? ?].
      + simpl. do 3 f_equal. rewrite Z2Qc_inj_0. by rewrite Qcplus_0_l. }
  exists r. split; [exact Hrun|]. intros k. rewrite Hr. by rewrite lookup_empty.
Qed.

(** ** [getFreqItems] *)

Lemma getFreqItems_resolved thr approx s :
  getFreqItems thr approx s =
  (if decide (approx = "lower"%string) then
     comprehension (keys_of (counter s)) (λ key,
       let* ctr := gets counter in
       ret (num_gtb (PyInt (Counter_get ctr key)) (resolve_threshold s thr)))
   else if decide (approx = "upper"%string) then
     comprehension (keys_of (counter s)) (λ key,
       let* ctr := gets counter in
       let* e := error_getitem key in
       ret (num_gtb (PyInt (Counter_get ctr key + e)) (resolve_threshold s thr)))
   else if decide (approx = "median"%string) then
     comprehension (keys_of (counter s)) (λ key,
       let* ctr := gets counter in
       let* e := error_getitem key in
       ret (num_gtb (int_add (Counter_get ctr key) (PyFloat (truediv e 2)))
                    (resolve_threshold s thr)))
   else raise NotImplementedError) s.
Proof.
  unfold getFreqItems, resolve_threshold.
  destruct thr as [t|]; run_monad;
    destruct (num_ltb _ _); simpl; by repeat case_decide.
Qed.

Lemma getFreqItems_spec thr approx s :
  tracked_have_error s → supported approx →
  ∃ l, getFreqItems thr approx s = (inr l, s) ∧ NoDup l ∧
       ∀ k, k ∈ l ↔ frequent s thr approx k.
Proof.
  intros Hte Hs. rewrite getFreqItems_resolved.
  set (t := resolve_threshold s thr).
  set (f := λ key, num_gtb (estimate approx (Counter_get (counter s) key)
                              (default 0 (error s !! key))) t).
  exists (filter (λ key, f key) (keys_of (counter s))).
  split; [|split].
  - unfold f, estimate.
    repeat case_decide; [..|by destruct Hs as [?|[?|?]]];
      apply comprehension_spec; intros key [c Hc]%elem_of_keys_of;
      unfold error_getitem; run_monad; try done;
      (destruct (Hte key) as [e ->]; [by eexists|]); done.
  - apply NoDup_filter, NoDup_keys_of.
  - intros k. rewrite list_elem_of_filter, elem_of_keys_of.
    unfold f, frequent, num_gtb, num_ltb, Counter_get. fold t. split.
    + intros [Hf [c Hc]]. destruct (Hte k) as [e He]; [by eexists|].
      exists c, e. rewrite Hc, He in Hf. simpl in Hf.
      split; [done|]. split; [done|]. by apply bool_decide_unpack in Hf.
    + intros (c & e & Hc & He & Hlt). rewrite Hc, He. simpl.
      split; [by apply bool_decide_pack|by eexists].
Qed.

Lemma half_between (e : Z) :
  0 ≤ e → (0 ≤ truediv e 2 ∧ truediv e 2 ≤ Qc_of_Z e)%Qc.
Proof.
  intros He. unfold truediv.
  change ((0 <= Qred (inject_Z e * / inject_Z 2))%Q
          ∧ (Qred (inject_Z e * / inject_Z 2) <= inject_Z e)%Q).
  rewrite Qred_correct. rewrite Zle_Qle in He.
  change (inject_Z 0) with 0%Q in He. change (/ inject_Z 2)%Q with (1 # 2)%Q.
  set (x := inject_Z e) in *. clearbody x. split; lra.
Qed.

Lemma estimate_ordered c e :
  0 ≤ e →
  (value (estimate "lower" c e) ≤ value (estimate "median" c e) ∧
   value (estimate "median" c e) ≤ value (estimate "upper" c e))%Qc.
Proof.
  intros He. destruct (half_between e He) as [H0 H1].
  unfold estimate. simpl. rewrite Z2Qc_inj_add. split.
  - rewrite <-(Qcplus_0_r (Qc_of_Z c)) at 1. by apply Qcplus_le_mono_l.
  - by apply Qcplus_le_mono_l.
Qed.

Lemma frequent_modes s thr k :
  (∀ k e, error s !! k = Some e → 0 ≤ e) →
  (frequent s thr "lower" k → frequent s thr "median" k) ∧
  (frequent s thr "median" k → frequent s thr "upper" k).
Proof.
  intros Herr. split; intros (c & e & Hc & He & Hlt); exists c, e;
    (split; [done|]); (split; [done|]);
    destruct (estimate_ordered c e (Herr k e He)) as [H1 H2];
    eapply Qclt_le_trans; eauto.
Qed.

(** ** No item above the threshold is missed in ['upper'] mode *)


(** * Further properties, as theorems *)

(** X1.  On an engine built with [eps > 0], after any history of calls,
    every submitted item is counted either in the global total or in the
    cache total: [total + _cache_total = len(stream)]. *)
Theorem total_accounts_for_stream e pl fl s0 cs :
  (0 < e)%Qc → __init__ e pl fl = inr s0 →
  let st := run cs (s0, []) in
  total st.1 + _cache_total st.1 = Z.of_nat (length st.2) ∧
  0 ≤ _cache_total st.1 ∧ 0 ≤ total st.1.
Proof.
  intros Hpos Hinit st.
  destruct (run_accounted e pl fl s0 cs Hpos Hinit) as (Htot & Hnb0 & Hnbw & _).
  destruct (run_reaches_sound e pl fl s0 cs Hpos Hinit) as (Hw & Hct & _).
  split; [done|]. split; [done|]. fold st in Hnb0, Hnbw, Hw. nia.
Qed.



(** X4.  On an engine built with [eps > 0], the bucket clock and the
    global total never decrease as the history of calls grows. *)
Theorem clock_and_total_never_decrease e pl fl s0 cs1 cs2 :
  (0 < e)%Qc → __init__ e pl fl = inr s0 →
  let before := (run cs1 (s0, [])).1 in
  let after := (run (cs1 ++ cs2) (s0, [])).1 in
  _nbucket before ≤ _nbucket after ∧ total before ≤ total after.
Proof.
  intros Hpos Hinit before after. subst before after. rewrite run_app.
  apply rtc_prim_step_grows, prims_run.
  by eapply run_reaches_sound.
Qed.


(** X6.  On an engine built with [eps > 0] and a flush limit of at least 1,
    the cache total is below [flush_limit] after every call, and caching an
    empty chunk then changes nothing and flushes nothing. *)
Theorem cache_stays_below_flush_limit e pl fl s0 cs :
  (0 < e)%Qc → __init__ e pl fl = inr s0 → 1 ≤ flush_limit s0 →
  let s := (run cs (s0, [])).1 in
  0 ≤ _cache_total s < flush_limit s ∧ cache [] s = (inr tt, s).
Proof.
  intros Hpos Hinit Hfl s.
  assert (sound s0 []) as Hs0 by by eapply init_sound.
  assert (_cache_total s0 = 0) as Hct0.
  { unfold __init__ in Hinit. case_decide; [done|]. by injection Hinit as <-. }
  assert (_cache_total s < flush_limit s) as Hlt
    by (apply (run_below_limit cs (s0, [])); simpl; [done|lia..]).
  destruct (run_reaches_sound e pl fl s0 cs Hpos Hinit) as (_ & Hct & _).
  split; [done|]. by apply cache_nothing.
Qed.

(** X7.  Pruning is idempotent: on an object whose tracked items all have
    an error entry, a second [prune] right after the first changes
    nothing, and no entry is left that meets the pruning condition. *)
Theorem prune_idempotent s :
  tracked_have_error s →
  ∃ s1, prune s = (inr tt, s1) ∧ prune s1 = (inr tt, s1) ∧
        ∀ k, prunable s1 k = false.
Proof.
  intros Hte. destruct (prune_spec s Hte) as (s1 & Hrun & Hc & He & Hf).
  assert (pruned s s1) as Hp by done.
  exists s1. split; [done|].
  split; [|by eapply pruned_none_prunable].
  apply prune_fixed; [by eapply pruned_tracked|by eapply pruned_none_prunable].
Qed.


Lemma rtc_prim_step_accounted st st' :
  rtc prim_step st st' → accounted st.1 st.2 → accounted st'.1 st'.2.
Proof.
  induction 1 as [|st1 st2 st3 Hstep _ IH]; [done|].
  intros Hacc. apply IH. by eapply prim_step_accounted.
Qed.

Lemma sound_bounds s stream k :
  sound s stream → bounds_hold s (flushed_count s stream k) k.
Proof.
  intros (_ & _ & Hk). specialize (Hk k).
  eexists. split; [apply getBounds_one|]. unfold Counter_get. simpl.
  destruct (counter s !! k), (error s !! k); simpl; try done; lia.
Qed.

(** X9.  On an engine built with [eps > 0], at any point of its history,
    [count] with a chunk size of at least 1 returns normally and leaves the
    cache empty, the whole stream in the global total, no table entry that
    meets the pruning condition, and bounds that enclose the true count of
    every item. *)
Theorem count_flushes_and_prunes e pl fl s0 cs iterable chunk_size :
  (0 < e)%Qc → __init__ e pl fl = inr s0 →
  let st := run cs (s0, []) in
  1 ≤ default (flush_limit st.1) chunk_size →
  ∃ s', count iterable chunk_size st.1 = (inr tt, s') ∧
    _cache_counter s' = ∅ ∧ _cache_total s' = 0 ∧
    total s' = Z.of_nat (length (st.2 ++ iterable)) ∧
    (∀ k, prunable s' k = false) ∧
    (∀ k, bounds_hold s' (tally (st.2 ++ iterable) k) k).
Proof.
  intros Hpos Hinit st Hn.
  pose proof (run_reaches_sound e pl fl s0 cs Hpos Hinit) as Hs.
  pose proof (run_accounted e pl fl s0 cs Hpos Hinit) as Hacc.
  fold st in Hs, Hacc.
  destruct (count_final iterable chunk_size st.1 st.2 Hs Hn)
    as (s' & Hrun & Hs' & Hsteps & Hct & Hcc & Hnone).
  destruct st as [s stream]. simpl in *.
  apply rtc_prim_step_accounted in Hsteps; [|done].
  destruct Hsteps as (Htot & _). simpl in Htot.
  exists s'. split_and!; try done; [lia|].
  intros k. pose proof (sound_bounds s' _ k Hs') as Hb.
  unfold flushed_count, Counter_get in Hb.
  rewrite Hcc, lookup_empty in Hb. simpl in Hb. by rewrite Z.sub_0_r in Hb.
Qed.

(** X10.  [count] with a chunk size below 1 (the given one, or
    [flush_limit] when none is given) raises [ValueError] before anything
    is cached: the object is unchanged. *)
Theorem count_rejects_small_chunk iterable chunk_size s :
  default (flush_limit s) chunk_size < 1 →
  count iterable chunk_size s = (inl ValueError, s).
Proof. apply count_rejected. Qed.

(** X11.  With a zero bucket width a [cache] call that reaches
    [flush_limit] raises [ZeroDivisionError] from the flush it triggers,
    and the chunk stays in the cache: the call is not undone. *)
Theorem cache_keeps_items_when_flush_raises chunk s :
  w s = 0 →
  _cache_total s + Z.of_nat (length chunk) >= flush_limit s →
  ∃ s1, cache chunk s = (inl ZeroDivisionError, s1) ∧ filled chunk s s1.
Proof.
  intros Hw Hfl.
  destruct (cache_spec chunk s)
    as (s1 & Hcc & Hct1 & Hc & He & Htot & Hnb & Hcfg & Hrun).
  assert (filled chunk s s1) as Hf by done.
  exists s1. split; [|done]. rewrite Hrun.
  destruct Hcfg as (_ & Hw1 & _ & Hfl1).
  rewrite decide_True by lia. apply flush_zero_width. congruence.
Qed.

(** X12.  When [batched] accepts [n], its chunks are consecutive slices of
    the iterable: concatenated they give it back, none is empty or longer
    than [n], and all but the last have exactly [n] items. *)
Theorem batched_partitions {A} (iterable : list A) n chunks :
  batched iterable n = inr chunks →
  concat chunks = iterable ∧
  Forall (λ c, c ≠ [] ∧ Z.of_nat (length c) ≤ n) chunks ∧
  ∀ i c, chunks !! i = Some c → (S i < length chunks)%nat →
         Z.of_nat (length c) = n.
Proof.
  intros Hb. split; [by eapply concat_batched|].
  unfold batched in Hb. case_decide; [done|]. injection Hb as <-.
  destruct (batched_go_chunks (length iterable) (Z.to_nat n) iterable)
    as [Hall Hfull]; [lia|lia|].
  split.
  - eapply Forall_impl; [exact Hall|]. intros c [? ?]. split; [done|lia].
  - intros i c Hc Hi. rewrite (Hfull i c Hc Hi). lia.
Qed.

(** X13.  On an object whose table and error map have the same keys, the
    four point queries agree key by key: for every requested key the
    'lower' and 'upper' counts are the two bounds of [getBounds], the
    'median' count is their mean, and [getCountsAndErrors] gives the lower
    bound and the width; keys not requested are absent from every result. *)
Theorem queries_agree_key_by_key keys s :
  same_keys s →
  ∃ rl ru rm rb rce,
    getCounts keys "lower" s = (inr rl, s) ∧
    getCounts keys "upper" s = (inr ru, s) ∧
    getCounts keys "median" s = (inr rm, s) ∧
    getBounds keys s = (inr rb, s) ∧
    getCountsAndErrors keys s = (inr rce, s) ∧
    (∀ k, k ∈ keys →
       ∃ b m, rb !! k = Some b ∧
         rl !! k = Some (PyInt (lower b)) ∧
         ru !! k = Some (PyInt (upper b)) ∧
         rm !! k = Some m ∧
         value m = ((Qc_of_Z (lower b) + Qc_of_Z (upper b)) / 2)%Qc ∧
         rce !! k = Some (mkCountError (lower b) (upper b - lower b))) ∧
    (∀ k, k ∉ keys →
       rl !! k = None ∧ ru !! k = None ∧ rm !! k = None ∧
       rb !! k = None ∧ rce !! k = None).
Proof.
  intros Hsk.
  destruct (getCounts_lower_spec keys s) as (rl & Hrl & Hl).
  destruct (getCounts_upper_spec keys s Hsk) as (ru & Hru & Hu).
  destruct (getCounts_median_spec keys s Hsk) as (rm & Hrm & Hm).
  destruct (getBounds_spec keys s) as (rb & Hrb & Hb).
  destruct (getCountsAndErrors_spec keys s) as (rce & Hrce & Hce).
  exists rl, ru, rm, rb, rce. split_and!; try done.
  - intros k Hk. do 2 eexists.
    rewrite Hb, Hl, Hu, Hm, Hce. rewrite !decide_True by done.
    split_and!; try done.
    + simpl. unfold truediv. rewrite Z2Qc_inj_add, Z2Qc_inj_2. field. done.
    + simpl. do 2 f_equal. lia.
  - intros k Hk. rewrite Hb, Hl, Hu, Hm, Hce. by rewrite !decide_False by done.
Qed.


(** X15.  On an engine built with [eps > 0], after any history of calls
    and for any threshold, the items listed in 'lower' mode are among those
    listed in 'median' mode, which are among those listed in 'upper'
    mode. *)
Theorem freq_items_modes_nested e pl fl s0 cs thr :
  (0 < e)%Qc → __init__ e pl fl = inr s0 →
  let s := (run cs (s0, [])).1 in
  ∃ ll lm lu,
    getFreqItems thr "lower" s = (inr ll, s) ∧
    getFreqItems thr "median" s = (inr lm, s) ∧
    getFreqItems thr "upper" s = (inr lu, s) ∧
    ll ⊆ lm ∧ lm ⊆ lu.
Proof.
  intros Hpos Hinit s.
  pose proof (run_reaches_sound e pl fl s0 cs Hpos Hinit) as Hs.
  destruct (run_accounted e pl fl s0 cs Hpos Hinit) as (_ & _ & _ & Herr & _).
  fold s in Herr.
  assert (tracked_have_error s) as Hte by by eapply sound_tracked.
  destruct (getFreqItems_spec thr "lower" s Hte) as (ll & Hrl & _ & Hl);
    [by left|].
  destruct (getFreqItems_spec thr "median" s Hte) as (lm & Hrm & _ & Hm);
    [by right; right|].
  destruct (getFreqItems_spec thr "upper" s Hte) as (lu & Hru & _ & Hu);
    [by right; left|].
  assert (∀ k e', error s !! k = Some e' → 0 ≤ e') as Hnn
    by (intros k e' He'; apply Herr in He'; lia).
  exists ll, lm, lu. split_and!; try done.
  - intros k Hk. apply Hm, (frequent_modes s thr k Hnn), Hl, Hk.
  - intros k Hk. apply Hu, (frequent_modes s thr k Hnn), Hm, Hk.
Qed.

(** X16.  A threshold below 1 is a fraction of the global total: as long
    as the product is not itself below 1, [getFreqItems] gives the same
    outcome for the fraction and for the product passed as a count. *)
Theorem threshold_forms_agree t approx s :
  (value t < 1)%Qc →
  ¬ (value (num_mul_int t (total s)) < 1)%Qc →
  getFreqItems (Some t) approx s
  = getFreqItems (Some (num_mul_int t (total s))) approx s.
Proof.
  intros Hlt Hge. rewrite !getFreqItems_resolved.
  assert (resolve_threshold s (Some t) = num_mul_int t (total s)) as ->.
  { unfold resolve_threshold, num_ltb. simpl. rewrite Z2Qc_inj_1.
    by rewrite bool_decide_eq_true_2. }
  assert (resolve_threshold s (Some (num_mul_int t (total s)))
          = num_mul_int t (total s)) as ->; [|done].
  unfold resolve_threshold, num_ltb. simpl. rewrite Z2Qc_inj_1.
  by rewrite bool_decide_eq_false_2.
Qed.


(** X18.  On an engine built with [eps > 0], after any history of calls
    and for any threshold, 'lower' mode lists no false positive: every
    listed item has a flushed count above the resolved threshold. *)
Theorem lower_mode_lists_only_heavy_items e pl fl s0 cs thr :
  (0 < e)%Qc → __init__ e pl fl = inr s0 →
  let st := run cs (s0, []) in
  ∃ l, getFreqItems thr "lower" st.1 = (inr l, st.1) ∧
    ∀ k, k ∈ l →
      (value (resolve_threshold st.1 thr)
       < Qc_of_Z (flushed_count st.1 st.2 k))%Qc.
Proof.
  intros Hpos Hinit st.
  pose proof (run_reaches_sound e pl fl s0 cs Hpos Hinit) as Hs. fold st in Hs.
  destruct (getFreqItems_spec thr "lower" st.1) as (l & Hrun & _ & Hl);
    [by eapply sound_tracked|by left|].
  exists l. split; [done|]. intros k Hk.
  apply Hl in Hk as (c & e' & Hc & He & Hlt).
  destruct Hs as (_ & _ & Hinv). destruct (Hinv k) as [_ Hm].
  rewrite Hc, He in Hm. unfold estimate in Hlt. simpl in Hlt.
  eapply Qclt_le_trans; [exact Hlt|]. apply (proj1 (Z2Qc_inj_le _ _)). lia.
Qed.

(** ** The cache counter and its total *)

Lemma Counter_total_insert (cc : gmap K Z) k x :
  Counter_total (<[k := x]> cc) = x + Counter_total cc - Counter_get cc k.
Proof.
  assert (∀ (m : gmap K Z) y, m !! k = None →
            Counter_total (<[k := y]> m) = y + Counter_total m) as Hfresh.
  { intros m y Hm. unfold Counter_total.
    rewrite map_fold_insert_L; [done| |done]. intros. lia. }
  unfold Counter_get. destruct (cc !! k) as [v|] eqn:Hk; simpl.
  - rewrite <-insert_delete_eq.
    rewrite <-(insert_delete_id cc k v Hk) at 2.
    rewrite !Hfresh by apply lookup_delete_eq. lia.
  - rewrite Hfresh by done. lia.
Qed.

Lemma Counter_update_total (cc : gmap K Z) chunk :
  Counter_total (Counter_update cc chunk)
  = Counter_total cc + Z.of_nat (length chunk).
Proof.
  unfold Counter_update. revert cc.
  induction chunk as [|key chunk IH]; intros cc; simpl; [lia|].
  rewrite IH, Counter_total_insert. lia.
Qed.

Lemma Counter_update_positive (cc : gmap K Z) chunk :
  (∀ k v, cc !! k = Some v → 1 ≤ v) →
  ∀ k v, Counter_update cc chunk !! k = Some v → 1 ≤ v.
Proof.
  unfold Counter_update. revert cc.
  induction chunk as [|key chunk IH]; intros cc Hpos; simpl; [done|].
  apply IH. intros k v. rewrite lookup_insert. case_decide as Hk.
  - intros [= <-]. unfold Counter_get.
    destruct (cc !! key) as [v'|] eqn:Hv; simpl; [|lia].
    apply Hpos in Hv. lia.
  - apply Hpos.
Qed.

Lemma cache_update_exact chunk s :
  cache_update chunk s
  = (inr tt, set_cache_counter (Counter_update (_cache_counter s) chunk) s).
Proof.
  unfold cache_update, Counter_update. revert s.
  induction chunk as [|key chunk IH]; intros s; cbn [for_ foldl].
  - by destruct s.
  - unfold bind at 1. unfold bind at 1, gets at 1, modify at 1.
    cbv beta iota. rewrite IH. done.
Qed.

Lemma cache_fill_exact chunk s :
  cache_fill chunk s
  = (inr tt, set_cache_total (_cache_total s + Z.of_nat (length chunk))
               (set_cache_counter (Counter_update (_cache_counter s) chunk) s)).
Proof.
  unfold cache_fill. unfold bind at 1. rewrite cache_update_exact. done.
Qed.

Lemma cache_fill_consistent chunk s :
  cache_consistent s → cache_consistent (cache_fill chunk s).2.
Proof.
  intros [Htot Hpos]. rewrite cache_fill_exact. split; simpl.
  - rewrite Counter_update_total. lia.
  - by apply Counter_update_positive.
Qed.

(** ** Methods that leave the cache alone *)

Lemma prune_preserves (P : LossyCounter K → Prop) :
  (∀ v s, P s → P (set_counter v s)) →
  (∀ v s, P s → P (set_error v s)) →
  preserves P (prune (K:=K)).
Proof.
  intros Hc He.
  unfold prune, prune_keys, del_loop, counter_delitem, error_delitem.
  repeat first
    [ apply preserves_readonly;
        solve [by intros ? | apply readonly_error_getitem]
    | apply preserves_modify; intros ? ?; solve [by apply Hc | by apply He]
    | apply preserves_for_; intros ?
    | apply preserves_comprehension; intros ?
    | apply preserves_bind; [|intros ?]
    | match goal with |- context [?m !! ?k] => destruct (m !! k) end ].
Qed.

Lemma cache_consistent_empty s :
  _cache_counter s = ∅ → _cache_total s = 0 → cache_consistent s.
Proof.
  intros Hcc Hct. split.
  - by rewrite Hcc, Hct.
  - intros k v. by rewrite Hcc, lookup_empty.
Qed.

Lemma prune_cache_consistent : preserves cache_consistent (prune (K:=K)).
Proof. apply prune_preserves; by intros v []. Qed.

Lemma flush_cache_consistent : preserves cache_consistent (flush (K:=K)).
Proof.
  intros s Hs. destruct (decide (w s = 0)) as [Hw|Hw].
  - by rewrite flush_zero_width.
  - destruct (flush_spec s Hw) as (s1 & _ & _ & _ & _ & Hcc & Hct & _ & ->).
    assert (cache_consistent s1) by by apply cache_consistent_empty.
    case_decide; [by apply prune_cache_consistent|done].
Qed.

Lemma cache_cache_consistent chunk : preserves cache_consistent (cache (K:=K) chunk).
Proof.
  unfold cache. apply preserves_bind; [intros s; apply cache_fill_consistent|].
  intros _. apply preserves_bind; [by apply preserves_readonly|intros ct].
  apply preserves_bind; [by apply preserves_readonly|intros fl].
  case_decide; [apply flush_cache_consistent|by apply preserves_readonly].
Qed.

Lemma count_cache_consistent iterable chunk_size :
  preserves cache_consistent (count (K:=K) iterable chunk_size).
Proof.
  unfold count.
  apply preserves_bind; [by destruct chunk_size; apply preserves_readonly|intros n].
  apply preserves_bind; [by apply preserves_readonly|intros chunks].
  apply preserves_bind; [apply preserves_for_, cache_cache_consistent|intros _].
  apply preserves_bind; [apply flush_cache_consistent|intros _].
  apply preserves_bind; [by apply preserves_readonly|intros ctr].
  apply preserves_bind; [by apply preserves_readonly|intros pl].
  case_decide; [apply prune_cache_consistent|by apply preserves_readonly].
Qed.

Lemma run_cache_consistent cs st :
  cache_consistent st.1 → cache_consistent (run cs st).1.
Proof.
  revert st. induction cs as [|c cs IH]; intros st Hs; simpl; [done|].
  apply IH. simpl. destruct c; simpl;
    [by apply cache_cache_consistent|by apply count_cache_consistent
    |by apply flush_cache_consistent|by apply prune_cache_consistent].
Qed.

Lemma init_cache_consistent e pl fl s :
  __init__ (K:=K) e pl fl = inr s → cache_consistent s.
Proof.
  unfold __init__. case_decide; [done|]. intros [= <-].
  by apply cache_consistent_empty.
Qed.

(** ** A flush admits fewer than [w] new entries *)

Lemma filter_ext_in {A} (P1 P2 : A → Prop)
    `{∀ x, Decision (P1 x), ∀ x, Decision (P2 x)} (l : list A) :
  (∀ x, x ∈ l → (P1 x ↔ P2 x)) → filter P1 l = filter P2 l.
Proof.
  induction l as [|x l IH]; intros Heq; [done|].
  rewrite !filter_cons.
  rewrite IH by (intros y Hy; by apply Heq, list_elem_of_further).
  pose proof (Heq x (list_elem_of_here _ _)) as Hx.
  destruct (decide (P1 x)), (decide (P2 x)); try done; exfalso; tauto.
Qed.

Lemma heavy_keys_bounded (ctr cc : gmap K Z) b :
  0 ≤ b → (∀ k v, cc !! k = Some v → 0 ≤ v) →
  (b + 1) * Z.of_nat (length (filter (λ key, ctr !! key = None
                                             ∧ Counter_get cc key > b)
                                     (keys_of cc)))
  ≤ Counter_total cc.
Proof.
  intros Hb. induction cc as [|i x m Hi IH] using map_ind; intros Hpos.
  - unfold keys_of, Counter_total. rewrite map_to_list_empty, map_fold_empty.
    simpl. lia.
  - assert (keys_of (<[i:=x]> m) ≡ₚ i :: keys_of m) as Hperm.
    { unfold keys_of. by rewrite map_to_list_insert. }
    rewrite Hperm, Counter_total_insert.
    assert (Counter_get m i = 0) as -> by (unfold Counter_get; by rewrite Hi).
    rewrite filter_cons.
    assert (filter (λ key, ctr !! key = None ∧ Counter_get (<[i:=x]> m) key > b)
                   (keys_of m)
            = filter (λ key, ctr !! key = None ∧ Counter_get m key > b)
                     (keys_of m)) as ->.
    { apply filter_ext_in. intros key [v Hv]%elem_of_keys_of.
      unfold Counter_get. rewrite lookup_insert_ne; [done|].
      intros ->. congruence. }
    assert (0 ≤ x) as Hx by (apply (Hpos i); by rewrite lookup_insert_eq).
    assert (∀ k v, m !! k = Some v → 0 ≤ v) as Hpos'.
    { intros k v Hk. apply (Hpos k). rewrite lookup_insert_ne; [done|].
      intros ->. congruence. }
    specialize (IH Hpos').
    case_decide as Hcase; simpl.
    + destruct Hcase as [_ Hgt]. unfold Counter_get in Hgt.
      rewrite lookup_insert_eq in Hgt. simpl in Hgt. lia.
    + lia.
Qed.

Lemma admitted_below_width s :
  cache_consistent s → 1 ≤ w s →
  Z.of_nat (admitted s) < w s.
Proof.
  intros [Htot Hpos] Hw. unfold admitted.
  assert (0 ≤ Counter_total (_cache_counter s)) as Hsum.
  { pose proof (heavy_keys_bounded ∅ (_cache_counter s) 0) as Hb.
    assert (∀ k v, _cache_counter s !! k = Some v → 0 ≤ v) as Hnn
      by (intros k v Hk; apply Hpos in Hk; lia).
    specialize (Hb ltac:(lia) Hnn). lia. }
  assert (0 ≤ _cache_total s / w s) as Hb by (apply Z.div_pos; lia).
  pose proof (heavy_keys_bounded (counter s) (_cache_counter s)
                (_cache_total s / w s) Hb) as Hle.
  assert (∀ k v, _cache_counter s !! k = Some v → 0 ≤ v) as Hnn
    by (intros k v Hk; apply Hpos in Hk; lia).
  specialize (Hle Hnn).
  pose proof (Z.mul_succ_div_gt (_cache_total s) (w s) ltac:(lia)) as Hgt.
  nia.
Qed.

(** X19.  On an engine built with [eps > 0], whenever a flush runs (on the
    object as a call finds it, or right after [cache] has added a chunk),
    the cache total is the sum of the cached counts and fewer than [w]
    items pass the admission test [cached_count > b]: one flush adds at
    most [w - 1] entries to the table. *)
Theorem flush_admits_fewer_than_w e pl fl s0 cs chunk :
  (0 < e)%Qc → __init__ e pl fl = inr s0 →
  let s := (cache_fill chunk (run cs (s0, [])).1).2 in
  _cache_total s = Counter_total (_cache_counter s) ∧
  Z.of_nat (admitted s) < w s.
Proof.
  intros Hpos Hinit s.
  assert (cache_consistent s) as Hcc.
  { apply cache_fill_consistent, (run_cache_consistent cs (s0, [])).
    by eapply init_cache_consistent. }
  split; [apply Hcc|]. apply admitted_below_width; [done|].
  assert (w s = w (run cs (s0, [])).1) as ->
    by (unfold s; by rewrite cache_fill_exact).
  by destruct (run_reaches_sound e pl fl s0 cs Hpos Hinit) as (Hw & _).
Qed.

(** X20.  For any configuration that [__init__] accepts and any history of
    calls, including calls that raise, the cache total is the sum of the
    counts in the cache counter, and every cached count is at least 1. *)
Theorem cache_total_is_counter_total e pl fl s0 cs :
  __init__ e pl fl = inr s0 →
  let s := (run cs (s0, [])).1 in
  _cache_total s = Counter_total (_cache_counter s) ∧
  ∀ k v, _cache_counter s !! k = Some v → 1 ≤ v.
Proof.
  intros Hinit s. apply (run_cache_consistent cs (s0, [])).
  by eapply init_cache_consistent.
Qed.

(** ** The table grows by fewer than [w] entries per flush *)

Lemma merged_size s s1 :
  flush_described s s1 →
  (size (counter s1) ≤ size (counter s) + admitted s)%nat.
Proof.
  intros (Hc & _). unfold admitted.
  set (l := filter (λ key, counter s !! key = None
                     ∧ Counter_get (_cache_counter s) key
                       > _cache_total s / w s)
                   (keys_of (_cache_counter s))).
  assert (dom (counter s1) ⊆ dom (counter s) ∪ list_to_set l) as Hsub.
  { intros k [v Hv]%elem_of_dom. rewrite Hc in Hv.
    apply elem_of_union.
    destruct (counter s !! k) as [c|] eqn:Hck; [left; by apply elem_of_dom|].
    right. apply elem_of_list_to_set, list_elem_of_filter.
    destruct (_cache_counter s !! k) as [ck|] eqn:Hcc; [|done].
    unfold merge_count in Hv. case_decide as Hgt; [|done].
    split; [|apply elem_of_keys_of; by eexists].
    split; [done|]. unfold Counter_get. by rewrite Hcc. }
  apply subseteq_size in Hsub. rewrite !size_dom in Hsub.
  pose proof (size_union_alt (dom (counter s)) (list_to_set l)) as Hu.
  assert (size (list_to_set (C:=gset K) l ∖ dom (counter s)) ≤ length l)%nat.
  { etrans; [apply subseteq_size, subseteq_difference_l; reflexivity|].
    rewrite size_list_to_set by (apply NoDup_filter, NoDup_keys_of). done. }
  rewrite size_dom in Hu. lia.
Qed.

Lemma pruned_size s s1 :
  pruned s s1 → (size (counter s1) ≤ size (counter s))%nat.
Proof.
  intros (Hc & _). apply map_subseteq_size, map_subseteq_spec.
  intros k v. rewrite Hc. by destruct (prunable s k).
Qed.

Lemma flush_growth s stream :
  sound s stream → cache_consistent s →
  Z.of_nat (size (counter (flush s).2)) < Z.of_nat (size (counter s)) + w s.
Proof.
  intros Hs Hcc. pose proof Hs as (Hw & _).
  pose proof (admitted_below_width s Hcc Hw) as Hadm.
  destruct (flush_steps s stream Hs) as (s1 & s2 & Hm & _ & -> & _ & Hcase).
  pose proof (merged_size s s1 Hm) as Hsize. simpl.
  destruct Hcase as [[_ ->]|[_ Hp]]; [lia|].
  apply pruned_size in Hp. lia.
Qed.

Lemma cache_fill_filled chunk s : filled chunk s (cache_fill chunk s).2.
Proof.
  destruct (cache_update_spec chunk s) as (cc & Hrun & Hcc).
  rewrite cache_update_exact in Hrun. injection Hrun as <-.
  rewrite cache_fill_exact. by repeat split.
Qed.

Lemma cache_unfold chunk s :
  cache chunk s =
  if decide (_cache_total (cache_fill chunk s).2
             >= flush_limit (cache_fill chunk s).2)
  then flush (cache_fill chunk s).2 else (inr tt, (cache_fill chunk s).2).
Proof.
  unfold cache. unfold bind at 1. rewrite cache_fill_exact. run_monad.
  by case_decide.
Qed.

(** X21.  On an engine built with [eps > 0], at any point of its history,
    one [flush] and one [cache] call each leave the table with fewer than
    [w] entries more than it had: the table grows by at most [w - 1]
    entries per flush. *)
Theorem table_grows_by_less_than_w e pl fl s0 cs chunk :
  (0 < e)%Qc → __init__ e pl fl = inr s0 →
  let s := (run cs (s0, [])).1 in
  Z.of_nat (size (counter (flush s).2)) < Z.of_nat (size (counter s)) + w s ∧
  Z.of_nat (size (counter (cache chunk s).2))
  < Z.of_nat (size (counter s)) + w s.
Proof.
  intros Hpos Hinit s.
  pose proof (run_reaches_sound e pl fl s0 cs Hpos Hinit) as Hs.
  assert (cache_consistent s) as Hcc
    by (apply (run_cache_consistent cs (s0, [])); by eapply init_cache_consistent).
  fold s in Hs. clearbody s.
  split; [by eapply flush_growth|].
  pose proof (cache_fill_filled chunk s) as Hf.
  pose proof (filled_sound chunk s _ _ Hs Hf) as Hs1.
  pose proof (cache_fill_consistent chunk s Hcc) as Hcc1.
  pose proof Hf as (_ & _ & Hc & _ & _ & _ & (_ & Hw & _)).
  rewrite cache_unfold. case_decide.
  - pose proof (flush_growth _ _ Hs1 Hcc1) as Hg. rewrite Hc, Hw in Hg. done.
  - simpl. rewrite Hc. destruct Hs as (? & _). lia.
Qed.

(** ** The queries do not look at the cache *)

Lemma cache_blind_ret {A} (a : A) : cache_blind (K:=K) (ret a).
Proof. by intros s cc ct. Qed.

Lemma cache_blind_raise {A} e : cache_blind (K:=K) (raise (A:=A) e).
Proof. by intros s cc ct. Qed.

Lemma cache_blind_gets {A} (f : LossyCounter K → A) :
  (∀ s cc ct, f (set_cache_total ct (set_cache_counter cc s)) = f s) →
  cache_blind (gets f).
Proof. intros Hf s cc ct. split; [done|]. unfold gets. by rewrite Hf. Qed.

Lemma cache_blind_bind {A B} (m : M K A) (f : A → M K B) :
  cache_blind m → (∀ a, cache_blind (f a)) → cache_blind (bind m f).
Proof.
  intros Hm Hf s cc ct. destruct (Hm s cc ct) as [Hs Hu].
  unfold bind. rewrite Hu.
  destruct (m s) as [[e|a] s1] eqn:Hms; simpl in *;
    injection Hs as ->; [done|]. apply Hf.
Qed.

Lemma cache_blind_for_acc {A B} (xs : list A) (body : A → B → M K B) acc :
  (∀ x b, cache_blind (body x b)) → cache_blind (for_acc xs acc body).
Proof.
  intros Hb. revert acc. induction xs as [|x xs IH]; intros acc; simpl.
  - apply cache_blind_ret.
  - apply cache_blind_bind; [apply Hb|done].
Qed.

Lemma cache_blind_comprehension {A} (xs : list A) (cond : A → M K bool) :
  (∀ x, cache_blind (cond x)) → cache_blind (comprehension xs cond).
Proof.
  intros Hc. induction xs as [|x xs IH]; simpl.
  - apply cache_blind_ret.
  - apply cache_blind_bind; [apply Hc|intros c].
    apply cache_blind_bind; [done|intros r; apply cache_blind_ret].
Qed.

Ltac blind_step :=
  first [ apply cache_blind_ret
        | apply cache_blind_raise
        | apply cache_blind_gets; solve [by intros ? ? ?]
        | apply cache_blind_for_acc; intros ? ?
        | apply cache_blind_comprehension; intros ?
        | apply cache_blind_bind; [|intros ?] ].

Lemma cache_blind_getCounts keys approx : cache_blind (getCounts (K:=K) keys approx).
Proof.
  unfold getCounts, error_getitem.
  repeat case_decide;
    repeat first
      [ blind_step
      | match goal with |- context [?m !! ?k] => destruct (m !! k) end ].
Qed.

Lemma cache_blind_getFreqItems thr approx :
  cache_blind (getFreqItems (K:=K) thr approx).
Proof.
  unfold getFreqItems, error_getitem.
  apply cache_blind_bind; [destruct thr; repeat blind_step|intros t0].
  apply cache_blind_bind; [destruct (num_ltb _ _); repeat blind_step|intros t1].
  repeat case_decide;
    repeat first
      [ blind_step
      | match goal with |- context [?m !! ?k] => destruct (m !! k) end ].
Qed.

Lemma cache_blind_getCountsAndErrors keys :
  cache_blind (getCountsAndErrors (K:=K) keys).
Proof. unfold getCountsAndErrors, error_get_default. repeat blind_step. Qed.

Lemma cache_blind_getBounds keys : cache_blind (getBounds (K:=K) keys).
Proof. unfold getBounds, error_get_default. repeat blind_step. Qed.

(** X22.  Items that are cached but not yet flushed are invisible to the
    queries: after a [cache] call that stays below [flush_limit], each of
    the four query methods returns what it returned before the call, in
    every object state. *)
Theorem queries_ignore_the_cache chunk keys thr approx s :
  _cache_total s + Z.of_nat (length chunk) < flush_limit s →
  let s' := (cache chunk s).2 in
  (cache chunk s).1 = inr tt ∧
  (getCounts keys approx s').1 = (getCounts keys approx s).1 ∧
  (getFreqItems thr approx s').1 = (getFreqItems thr approx s).1 ∧
  (getCountsAndErrors keys s').1 = (getCountsAndErrors keys s).1 ∧
  (getBounds keys s').1 = (getBounds keys s).1.
Proof.
  intros Hlt s'. unfold s'. rewrite cache_unfold, cache_fill_exact. simpl.
  rewrite decide_False by lia. simpl. split; [done|].
  set (cc := Counter_update (_cache_counter s) chunk).
  set (ct := _cache_total s + Z.of_nat (length chunk)).
  split_and!.
  - by rewrite (proj2 (cache_blind_getCounts keys approx s cc ct)).
  - by rewrite (proj2 (cache_blind_getFreqItems thr approx s cc ct)).
  - by rewrite (proj2 (cache_blind_getCountsAndErrors keys s cc ct)).
  - by rewrite (proj2 (cache_blind_getBounds keys s cc ct)).
Qed.

End LossyCounter_more_facts.

(** ** Instances of the further theorems *)

Lemma engine_eps_positive : (0 < Scenario.eps_tenth)%Qc.
Proof. reflexivity. Defined.

Lemma engine_constructed :
  __init__ Scenario.eps_tenth None (Some 10) = inr Scenario.engine.
Proof. vm_compute. reflexivity. Defined.

Lemma mixed_same_keys : same_keys Scenario.mixed.
Proof.
  unfold same_keys. apply (bool_decide_unpack _). vm_compute. exact I.
Defined.

Lemma total_accounts_for_stream_witness :
  (0 < Scenario.eps_tenth)%Qc ∧
  __init__ Scenario.eps_tenth None (Some 10) = inr Scenario.engine ∧
  total Cases.after_history.1 + _cache_total Cases.after_history.1
  = Z.of_nat (length Cases.after_history.2).
Proof.
  split; [exact engine_eps_positive|]. split; [exact engine_constructed|].
  exact (proj1 (total_accounts_for_stream _ _ _ _ Cases.history
                  engine_eps_positive engine_constructed)).
Defined.



Lemma clock_and_total_never_decrease_witness :
  (0 < Scenario.eps_tenth)%Qc ∧
  __init__ Scenario.eps_tenth None (Some 10) = inr Scenario.engine ∧
  _nbucket (run [Cache Scenario.batch] (Scenario.engine, [])).1
  ≤ _nbucket (run ([Cache Scenario.batch] ++ [Flush; Prune]) (Scenario.engine, [])).1.
Proof.
  split; [exact engine_eps_positive|]. split; [exact engine_constructed|].
  exact (proj1 (clock_and_total_never_decrease _ _ _ _
                  [Cache Scenario.batch] [Flush; Prune]
                  engine_eps_positive engine_constructed)).
Defined.


Lemma cache_stays_below_flush_limit_witness :
  (0 < Scenario.eps_tenth)%Qc ∧
  __init__ Scenario.eps_tenth None (Some 10) = inr Scenario.engine ∧
  1 ≤ flush_limit Scenario.engine ∧
  cache [] Cases.after_history.1 = (inr tt, Cases.after_history.1).
Proof.
  assert (1 ≤ flush_limit Scenario.engine) as Hfl by (vm_compute; discriminate).
  split; [exact engine_eps_positive|]. split; [exact engine_constructed|].
  split; [exact Hfl|].
  exact (proj2 (cache_stays_below_flush_limit _ _ _ _ Cases.history
                  engine_eps_positive engine_constructed Hfl)).
Defined.

Lemma prune_idempotent_witness :
  tracked_have_error Scenario.mixed ∧
  ∃ s1, prune Scenario.mixed = (inr tt, s1) ∧ prune s1 = (inr tt, s1).
Proof.
  split; [exact mixed_tracked|].
  destruct (prune_idempotent Scenario.mixed mixed_tracked) as (s1 & H1 & H2 & _).
  exists s1. split; [exact H1|exact H2].
Defined.


Lemma count_flushes_and_prunes_witness :
  (0 < Scenario.eps_tenth)%Qc ∧
  __init__ Scenario.eps_tenth None (Some 10) = inr Scenario.engine ∧
  1 ≤ default (flush_limit Scenario.engine) (Some 4) ∧
  ∃ s', count Scenario.batch (Some 4) Scenario.engine = (inr tt, s') ∧
        _cache_total s' = 0 ∧ total s' = 10.
Proof.
  assert (1 ≤ default (flush_limit Scenario.engine) (Some 4)) as Hn
    by (vm_compute; discriminate).
  split; [exact engine_eps_positive|]. split; [exact engine_constructed|].
  split; [exact Hn|].
  destruct (count_flushes_and_prunes _ _ _ _ [] Scenario.batch (Some 4)
              engine_eps_positive engine_constructed Hn)
    as (s' & Hrun & _ & Hct & Htot & _).
  exists s'. split; [exact Hrun|]. split; [exact Hct|exact Htot].
Defined.

Lemma count_rejects_small_chunk_witness :
  default (flush_limit Scenario.engine) (Some 0) < 1 ∧
  count Scenario.batch (Some 0) Scenario.engine = (inl ValueError, Scenario.engine).
Proof.
  assert (default (flush_limit Scenario.engine) (Some 0) < 1) as Hn
    by reflexivity.
  split; [exact Hn|].
  exact (count_rejects_small_chunk Scenario.batch (Some 0) Scenario.engine Hn).
Defined.

Lemma cache_keeps_items_when_flush_raises_witness :
  w Cases.zero_width = 0 ∧
  _cache_total Cases.zero_width + Z.of_nat (length ["a"; "b"; "c"]%string)
  >= flush_limit Cases.zero_width ∧
  ∃ s1, cache ["a"; "b"; "c"]%string Cases.zero_width
        = (inl ZeroDivisionError, s1) ∧
        _cache_total s1 = _cache_total Cases.zero_width + 3.
Proof.
  assert (w Cases.zero_width = 0) as Hw by (vm_compute; reflexivity).
  assert (_cache_total Cases.zero_width + Z.of_nat (length ["a"; "b"; "c"]%string)
          >= flush_limit Cases.zero_width) as Hfl by (vm_compute; discriminate).
  split; [exact Hw|]. split; [exact Hfl|].
  destruct (cache_keeps_items_when_flush_raises ["a"; "b"; "c"]%string
              Cases.zero_width Hw Hfl) as (s1 & Hrun & (_ & Hct & _)).
  exists s1. split; [exact Hrun|exact Hct].
Defined.

Lemma batched_partitions_witness :
  batched [1; 2; 3; 4; 5]%nat 2 = inr [[1; 2]; [3; 4]; [5]]%nat ∧
  concat [[1; 2]; [3; 4]; [5]]%nat = [1; 2; 3; 4; 5]%nat.
Proof.
  assert (batched [1; 2; 3; 4; 5]%nat 2 = inr [[1; 2]; [3; 4]; [5]]%nat) as Hb
    by reflexivity.
  split; [exact Hb|].
  exact (proj1 (batched_partitions [1; 2; 3; 4; 5]%nat 2 _ Hb)).
Defined.

Lemma queries_agree_key_by_key_witness :
  same_keys Scenario.mixed ∧
  ∃ rl rb,
    getCounts ["a"; "zz"]%string "lower" Scenario.mixed = (inr rl, Scenario.mixed) ∧
    getBounds ["a"; "zz"]%string Scenario.mixed = (inr rb, Scenario.mixed).
Proof.
  split; [exact mixed_same_keys|].
  destruct (queries_agree_key_by_key ["a"; "zz"]%string Scenario.mixed
              mixed_same_keys) as (rl & _ & _ & rb & _ & Hl & _ & _ & Hb & _).
  exists rl, rb. split; [exact Hl|exact Hb].
Defined.


Lemma freq_items_modes_nested_witness :
  (0 < Scenario.eps_tenth)%Qc ∧
  __init__ Scenario.eps_tenth None (Some 10) = inr Scenario.engine ∧
  ∃ ll lu,
    getFreqItems None "lower" Cases.after_history.1
      = (inr ll, Cases.after_history.1) ∧
    getFreqItems None "upper" Cases.after_history.1
      = (inr lu, Cases.after_history.1).
Proof.
  split; [exact engine_eps_positive|]. split; [exact engine_constructed|].
  destruct (freq_items_modes_nested _ _ _ _ Cases.history None
              engine_eps_positive engine_constructed)
    as (ll & lm & lu & Hl & _ & Hu & _).
  exists ll, lu. split; [exact Hl|exact Hu].
Defined.

Lemma threshold_forms_agree_witness :
  (value (PyFloat Scenario.eps_tenth) < 1)%Qc ∧
  ¬ (value (num_mul_int (PyFloat Scenario.eps_tenth) (total Scenario.mixed)) < 1)%Qc ∧
  getFreqItems (Some (PyFloat Scenario.eps_tenth)) "lower" Scenario.mixed
  = getFreqItems
      (Some (num_mul_int (PyFloat Scenario.eps_tenth) (total Scenario.mixed)))
      "lower" Scenario.mixed.
Proof.
  assert (value (PyFloat Scenario.eps_tenth) < 1)%Qc as Hlt by reflexivity.
  assert (¬ (value (num_mul_int (PyFloat Scenario.eps_tenth)
                      (total Scenario.mixed)) < 1)%Qc) as Hge
    by (vm_compute; discriminate).
  split; [exact Hlt|]. split; [exact Hge|].
  exact (threshold_forms_agree (PyFloat Scenario.eps_tenth) "lower"
           Scenario.mixed Hlt Hge).
Defined.


Lemma lower_mode_lists_only_heavy_items_witness :
  (0 < Scenario.eps_tenth)%Qc ∧
  __init__ Scenario.eps_tenth None (Some 10) = inr Scenario.engine ∧
  ∃ l, getFreqItems None "lower" Cases.after_history.1
       = (inr l, Cases.after_history.1).
Proof.
  split; [exact engine_eps_positive|]. split; [exact engine_constructed|].
  destruct (lower_mode_lists_only_heavy_items _ _ _ _ Cases.history None
              engine_eps_positive engine_constructed) as (l & Hrun & _).
  exists l. exact Hrun.
Defined.

Lemma flush_admits_fewer_than_w_witness :
  let s := (cache_fill Scenario.batch Cases.after_history.1).2 in
  (0 < Scenario.eps_tenth)%Qc ∧
  __init__ Scenario.eps_tenth None (Some 10) = inr Scenario.engine ∧
  Z.of_nat (admitted s) < w s.
Proof.
  intros s.
  split; [exact engine_eps_positive|]. split; [exact engine_constructed|].
  exact (proj2 (flush_admits_fewer_than_w _ _ _ _ Cases.history Scenario.batch
                  engine_eps_positive engine_constructed)).
Defined.

Lemma cache_total_is_counter_total_witness :
  __init__ Scenario.eps_tenth None (Some 10) = inr Scenario.engine ∧
  _cache_total Cases.after_history.1
  = Counter_total (_cache_counter Cases.after_history.1).
Proof.
  split; [exact engine_constructed|].
  exact (proj1 (cache_total_is_counter_total _ _ _ _ Cases.history
                  engine_constructed)).
Defined.

Lemma table_grows_by_less_than_w_witness :
  (0 < Scenario.eps_tenth)%Qc ∧
  __init__ Scenario.eps_tenth None (Some 10) = inr Scenario.engine ∧
  Z.of_nat (size (counter (flush Cases.after_history.1).2))
  < Z.of_nat (size (counter Cases.after_history.1)) + w Cases.after_history.1.
Proof.
  split; [exact engine_eps_positive|]. split; [exact engine_constructed|].
  exact (proj1 (table_grows_by_less_than_w _ _ _ _ Cases.history []
                  engine_eps_positive engine_constructed)).
Defined.

Lemma queries_ignore_the_cache_witness :
  _cache_total Scenario.roomy + Z.of_nat (length Scenario.batch)
  < flush_limit Scenario.roomy ∧
  (getBounds ["a"%string] (cache Scenario.batch Scenario.roomy).2).1
  = (getBounds ["a"%string] Scenario.roomy).1.
Proof.
  assert (_cache_total Scenario.roomy + Z.of_nat (length Scenario.batch)
          < flush_limit Scenario.roomy) as Hlt by (vm_compute; reflexivity).
  split; [exact Hlt|].
  destruct (queries_ignore_the_cache Scenario.batch ["a"%string] None "lower"
              Scenario.roomy Hlt) as (_ & _ & _ & _ & Hb).
  exact Hb.
Defined.
